(** * Resume retrieval engine: boolean search over normalized resume text

    A shallow embedding of [final_retriever.py]: the quoted-phrase
    preprocessor and parser wrapper ([BooleanSearchParser]), the text
    normalizer ([normalize]), the document flattener ([flatten_json]) and the
    expression evaluator ([evaluate_expression]), with the parsing step of
    [main].

    Python strings are modelled as [string]; a character is a code point
    below 256, and the character classes of [re] and [str] ([\w], [\s],
    [str.lower], [str.split]) are the ones Python 3 gives to these code
    points. *)

From Stdlib Require Import Ascii String NArith ZArith Arith Lia List Bool.
From stdpp Require Import base strings gmap pretty list.

Set Warnings "-register-all".

(** ** Characters *)

Definition ord (c : ascii) : N := N_of_ascii c.

Definition between (lo hi : N) (c : ascii) : bool :=
  ((lo <=? ord c) && (ord c <=? hi))%N.

(** The regex class [[a-z]]. *)
Definition is_az (c : ascii) : bool := between 97 122 c.

(** The regex class [[A-Z]]. *)
Definition is_AZ (c : ascii) : bool := between 65 90 c.

(** The regex class [\w] on a [str] pattern: letters, digits, numeric
    characters and the underscore. *)
Definition is_word (c : ascii) : bool :=
  between 48 57 c || is_AZ c || is_az c || (ord c =? 95)%N
  || (ord c =? 170)%N || between 178 179 c || (ord c =? 181)%N
  || between 185 186 c || between 188 190 c
  || between 192 214 c || between 216 246 c || between 248 255 c.

(** The regex class [\s], which is also the separator set of [str.split()]
    and [str.strip()]. *)
Definition is_space (c : ascii) : bool :=
  between 9 13 c || between 28 32 c || (ord c =? 133)%N || (ord c =? 160)%N.

(** The regex class [\S]. *)
Definition is_nonspace (c : ascii) : bool := negb (is_space c).

(** [str.lower] on one character. *)
Definition chr_lower (c : ascii) : ascii :=
  if is_AZ c || (between 192 222 c && negb (ord c =? 215)%N)
  then ascii_of_N (ord c + 32) else c.

Definition dquote : ascii := ascii_of_nat 34.
Definition space : ascii := ascii_of_nat 32.
Definition at_sign : ascii := ascii_of_nat 64.
Definition dot : ascii := ascii_of_nat 46.

Definition is_word_opt (c : option ascii) : bool :=
  match c with Some c => is_word c | None => false end.

(** ** Strings *)

(** [s.lower()] *)
Fixpoint str_lower (s : string) : string :=
  match s with
  | "" => ""
  | String c s' => String (chr_lower c) (str_lower s')
  end.

(** [s.startswith(p)] *)
Definition str_startswith (p s : string) : bool := String.prefix p s.

(** [needle in hay] *)
Fixpoint str_in (needle hay : string) : bool :=
  str_startswith needle hay ||
  match hay with
  | "" => false
  | String _ hay' => str_in needle hay'
  end.

(** [s[:n]] *)
Fixpoint str_take (n : nat) (s : string) : string :=
  match n, s with
  | S n', String c s' => String c (str_take n' s')
  | _, _ => ""
  end.

(** [s[n:]] *)
Fixpoint str_drop (n : nat) (s : string) : string :=
  match n, s with
  | S n', String _ s' => str_drop n' s'
  | _, _ => s
  end.

(** The character at index [n], when there is one. *)
Definition str_at (n : nat) (s : string) : option ascii := String.get n s.

(** [s.replace(c, Empty)] for a one-character [c]. *)
Fixpoint str_remove (c : ascii) (s : string) : string :=
  match s with
  | "" => ""
  | String a s' => if Ascii.eqb a c then str_remove c s' else String a (str_remove c s')
  end.

(** [sep.join(parts)] *)
Fixpoint str_join (sep : string) (parts : list string) : string :=
  match parts with
  | [] => ""
  | [p] => p
  | p :: rest => p +:+ sep +:+ str_join sep rest
  end.

(** Length of the longest prefix of [s] whose characters all satisfy [p]. *)
Fixpoint run_len (p : ascii -> bool) (s : string) : nat :=
  match s with
  | "" => 0
  | String c s' => if p c then S (run_len p s') else 0
  end.

Fixpoint str_exists (p : ascii -> bool) (s : string) : bool :=
  match s with
  | "" => false
  | String c s' => p c || str_exists p s'
  end.

Fixpoint str_forall (p : ascii -> bool) (s : string) : bool :=
  match s with
  | "" => true
  | String c s' => p c && str_forall p s'
  end.

(** [s.split()]: the maximal runs of non-whitespace characters, in order.
    [split_go s] is the run in progress at the head of [s] (empty when [s]
    starts with whitespace) and the complete tokens after it. *)
Definition flush (w : string) (ws : list string) : list string :=
  match w with "" => ws | _ => w :: ws end.

Fixpoint split_go (s : string) : string * list string :=
  match s with
  | "" => ("", [])
  | String c s' =>
      let '(w, ws) := split_go s' in
      if is_space c then ("", flush w ws) else (String c w, ws)
  end.

Definition str_split (s : string) : list string :=
  let '(w, ws) := split_go s in flush w ws.

(** [s.strip()] *)
Fixpoint str_lstrip (s : string) : string :=
  match s with
  | "" => ""
  | String c s' => if is_space c then str_lstrip s' else s
  end.

Fixpoint str_rstrip (s : string) : string :=
  match s with
  | "" => ""
  | String c s' =>
      match str_rstrip s' with
      | "" => if is_space c then "" else String c ""
      | r => String c r
      end
  end.

Definition str_strip (s : string) : string := str_rstrip (str_lstrip s).

(** ** Regular expressions

    A pattern is given by its anchored matcher: [m prev s] is the length of
    the match of the pattern at the start of [s], if there is one, where
    [prev] is the character before it (for look-behind and [\b]). All
    patterns of the program match at least one character. *)

Definition matcher := option ascii -> string -> option nat.

Inductive piece :=
  | Lit (c : ascii)       (* a character outside every match *)
  | Hit (t : string).     (* the text of one match *)

(** Left-to-right scan for non-overlapping matches; [skip] counts the
    characters of the current match still to be passed over. *)
Fixpoint scan_go (m : matcher) (skip : nat) (prev : option ascii) (s : string)
  : list piece :=
  match s with
  | "" => []
  | String c s' =>
      match skip with
      | S k => scan_go m k (Some c) s'
      | 0 =>
          match m prev s with
          | Some (S k) => Hit (str_take (S k) s) :: scan_go m k (Some c) s'
          | _ => Lit c :: scan_go m 0 (Some c) s'
          end
      end
  end.

Definition re_finditer (m : matcher) (s : string) : list piece :=
  scan_go m 0 None s.

(** [re.sub(pattern, repl, s)], with [repl] a function of the matched text. *)
Fixpoint rebuild (repl : string -> string) (ps : list piece) : string :=
  match ps with
  | [] => ""
  | Lit c :: ps' => String c (rebuild repl ps')
  | Hit t :: ps' => repl t +:+ rebuild repl ps'
  end.

Definition re_sub (m : matcher) (repl : string -> string) (s : string) : string :=
  rebuild repl (re_finditer m s).

(** [re.sub(pattern, callback, s)] where the callback also updates a state. *)
Fixpoint rebuild_with {St : Type} (f : St -> string -> St * string)
  (ps : list piece) (st : St) : St * string :=
  match ps with
  | [] => (st, "")
  | Lit c :: ps' =>
      let '(st', out) := rebuild_with f ps' st in (st', String c out)
  | Hit t :: ps' =>
      let '(st1, r) := f st t in
      let '(st', out) := rebuild_with f ps' st1 in (st', r +:+ out)
  end.

Definition re_sub_with {St : Type} (m : matcher) (f : St -> string -> St * string)
  (s : string) (st : St) : St * string :=
  rebuild_with f (re_finditer m s) st.

(** [re.findall(pattern, s)] for a pattern with one group, [grp] extracting
    the group from the matched text. *)
Fixpoint hits (grp : string -> string) (ps : list piece) : list string :=
  match ps with
  | [] => []
  | Lit _ :: ps' => hits grp ps'
  | Hit t :: ps' => grp t :: hits grp ps'
  end.

Definition re_findall (m : matcher) (grp : string -> string) (s : string)
  : list string :=
  hits grp (re_finditer m s).

(** [([a-z])([A-Z])] and its replacement [\1 \2]. *)
Definition re_camel : matcher := fun _ s =>
  match s with
  | String a (String b _) => if is_az a && is_AZ b then Some 2 else None
  | _ => None
  end.

Definition camel_repl (t : string) : string :=
  match t with
  | String a rest => String a (String space rest)
  | "" => ""
  end.

(** [(?<![\w@])\.net(?![\w.])] *)
Definition re_dotnet : matcher := fun prev s =>
  let behind :=
    match prev with
    | Some p => is_word p || Ascii.eqb p at_sign
    | None => false
    end in
  let ahead :=
    match str_at 4 s with
    | Some n => is_word n || Ascii.eqb n dot
    | None => false
    end in
  if negb behind && str_startswith ".net" s && negb ahead then Some 4 else None.

(** [\S+@\S+]: the first [\S+] is greedy and gives back characters until an
    [@] with a non-space character after it is found, and the second [\S+]
    runs to the end of the non-space run. *)
Definition re_email : matcher := fun _ s =>
  let run := run_len is_nonspace s in
  if str_exists (fun c => Ascii.eqb c at_sign) (str_take (run - 2) (str_drop 1 s))
  then Some run else None.

(** [https?://\S+|www\.\S+] *)
Definition re_url : matcher := fun _ s =>
  let rest_after (n : nat) :=
    match run_len is_nonspace (str_drop n s) with
    | 0 => None
    | r => Some (n + r)
    end in
  if str_startswith "https://" s then rest_after 8
  else if str_startswith "http://" s then rest_after 7
  else if str_startswith "www." s then rest_after 4
  else None.

(** The regex class of every character other than the quotation mark. *)
Definition is_notquote (c : ascii) : bool := negb (Ascii.eqb c dquote).

(** A quotation mark, one or more characters other than a quotation mark
    (group 1), and a quotation mark. *)
Definition re_quoted : matcher := fun _ s =>
  match s with
  | String q body =>
      if Ascii.eqb q dquote then
        match run_len is_notquote body with
        | 0 => None
        | r => match str_at r body with
               | Some _ => Some (r + 2)
               | None => None
               end
        end
      else None
  | "" => None
  end.

Definition quoted_group (t : string) : string :=
  str_take (String.length t - 2) (str_drop 1 t).

(** [[^\w\s]] *)
Definition re_symbol : matcher := fun _ s =>
  match s with
  | String c _ => if negb (is_word c || is_space c) then Some 1 else None
  | "" => None
  end.

(** [\s+] *)
Definition re_spaces : matcher := fun _ s =>
  match run_len is_space s with
  | 0 => None
  | r => Some r
  end.

(** ** Normalizer *)

(** Steps 1 to 4 of [normalize]: everything before tokenization. *)
Definition cleanup (text : string) : string :=
  (* 1) split CamelCase *)
  let text := re_sub re_camel camel_repl text in
  (* 2) lowercase and basic cleanup *)
  let text := str_lower text in
  let text := re_sub re_dotnet (fun _ => " dotnet ") text in
  let text := re_sub re_email (fun _ => "") text in
  let text := re_sub re_url (fun _ => "") text in
  (* 3) quoted phrases of the source text, appended without their spaces *)
  let quoted_phrases := re_findall re_quoted quoted_group text in
  let text :=
    fold_left (fun text phrase => text +:+ " " +:+ str_remove space phrase)
      quoted_phrases text in
  (* 4) strip quotation marks, remove symbols *)
  let text := str_remove dquote text in
  re_sub re_symbol (fun _ => " ") text.

(** 5a) [for i in range(len(words) - 1): text += " " + words[i] + words[i+1]] *)
Definition inject_bigrams (words : list string) (text : string) : string :=
  fold_left
    (fun text i => text +:+ " " +:+ nth i words "" +:+ nth (i + 1) words "")
    (seq 0 (length words - 1)) text.

(** 5b) [for tok in words: if len(tok) > 8: ...] *)
Definition inject_halves (words : list string) (text : string) : string :=
  fold_left
    (fun text tok =>
       if 8 <? String.length tok then
         let mid := String.length tok / 2 in
         text +:+ " " +:+ str_take mid tok +:+ " " +:+ str_drop mid tok
       else text)
    words text.

Definition normalize (text : string) : string :=
  let text := cleanup text in
  (* 5) tokenize and inject bigrams and halves *)
  let words := str_split text in
  let text := inject_bigrams words text in
  let text := inject_halves words text in
  (* 6) normalize whitespace *)
  str_strip (re_sub re_spaces (fun _ => " ") text).

(** ** Flattener *)

(** A raw document: maps (in iteration order), sequences and scalars. *)
Inductive value :=
  | VStr (s : string)
  | VNum (n : Z)
  | VBool (b : bool)
  | VNull
  | VList (items : list value)
  | VDict (items : list (string * value)).

(** The inner function [recurse] of [flatten_json]; the list [parts] it
    appends to is passed in and returned. *)
Fixpoint recurse (x : value) (parts : list string) : list string :=
  match x with
  | VStr s => parts ++ [s]
  | VDict items => fold_left (fun parts '(_, v) => recurse v parts) items parts
  | VList items => fold_left (fun parts i => recurse i parts) items parts
  | _ => parts
  end.

Definition flatten_json (obj : value) : string :=
  let parts := recurse obj [] in
  str_join " " parts.

(** The string leaves of a document in depth-first order, maps visited by
    value order and sequences by index order: what the flattener is
    specified to join. *)
Fixpoint string_leaves (x : value) : list string :=
  match x with
  | VStr s => [s]
  | VDict items => flat_map (fun '(_, v) => string_leaves v) items
  | VList items => flat_map string_leaves items
  | _ => []
  end.

(** ** Expressions and the evaluator *)

(** The expression classes of the boolean algebra that the program names. *)
Inductive Expression :=
  | Symbol (obj : string)
  | AND (args : list Expression)
  | OR (args : list Expression)
  | NOT (arg : Expression).

Definition is_boundary (before after : option ascii) : bool :=
  xorb (is_word_opt before) (is_word_opt after).

(** The pattern [r'\b' + re.escape(term) + r'\b'], anchored. *)
Definition re_word (term : string) : matcher := fun prev s =>
  let n := String.length term in
  let last := match n with 0 => prev | S k => str_at k s end in
  if is_boundary prev (str_at 0 s) && str_startswith term s
     && is_boundary last (str_at n s)
  then Some n else None.

(** [re.search(pattern, s)] as a truth value: a match at some position of
    [s], the end included. *)
Fixpoint search_go (m : matcher) (prev : option ascii) (s : string) : bool :=
  match m prev s with
  | Some _ => true
  | None =>
      match s with
      | "" => false
      | String c s' => search_go m (Some c) s'
      end
  end.

Definition re_search (m : matcher) (s : string) : bool := search_go m None s.

(** The [Symbol] branch of [evaluate_expression]. *)
Definition evaluate_symbol (obj text : string) (quoted_phrases : gmap string string)
  : bool :=
  let term := str_lower obj in
  (* 1) exact-phrase placeholders *)
  if str_startswith "QUOTED_PHRASE_" term
     && bool_decide (is_Some (quoted_phrases !! term))
  then
    let phrase := str_lower (quoted_phrases !!! term) in
    str_in phrase text
  (* 2) word-boundary match *)
  else if re_search (re_word term) text then true
  (* 3) fallback: substring *)
  else str_in term text.

Fixpoint evaluate_expression (expr : Expression) (text : string)
  (quoted_phrases : option (gmap string string)) : bool :=
  let quoted_phrases := default ∅ quoted_phrases in
  match expr with
  | Symbol obj => evaluate_symbol obj text quoted_phrases
  | AND args =>
      forallb (fun arg => evaluate_expression arg text (Some quoted_phrases)) args
  | OR args =>
      existsb (fun arg => evaluate_expression arg text (Some quoted_phrases)) args
  | _ => false
  end.

(** ** Query parser *)

Inductive result (A : Type) :=
  | Return (a : A)
  | Raise (msg : string).
Arguments Return {A} a.
Arguments Raise {A} msg.

(** The mutable fields of a [BooleanSearchParser]. *)
Record BooleanSearchParser := mkParser {
  quoted_phrases : gmap string string;
  placeholder_counter : nat
}.

(** [BooleanSearchParser.__init__] *)
Definition new_parser : BooleanSearchParser := mkParser ∅ 0.

Definition placeholder (n : nat) : string := "QUOTED_PHRASE_" +:+ pretty n.

(** The callback [replace_quoted] of [preprocess_query]. *)
Definition replace_quoted (self : BooleanSearchParser) (matched : string)
  : BooleanSearchParser * string :=
  let phrase := quoted_group matched in
  let ph := placeholder (placeholder_counter self) in
  (mkParser (<[ph := phrase]> (quoted_phrases self)) (placeholder_counter self + 1),
   ph).

Definition preprocess_query (self : BooleanSearchParser) (query : string)
  : BooleanSearchParser * string :=
  re_sub_with re_quoted replace_quoted query self.

Section Parser.

(** [self.algebra.parse] of the boolean-algebra library: an expression, or
    the text of the exception it raises. *)
Variable algebra_parse : string -> result Expression.

Definition parse_query (self : BooleanSearchParser) (query : string)
  : BooleanSearchParser * result Expression :=
  let self := mkParser ∅ (placeholder_counter self) in
  let self := mkParser (quoted_phrases self) 0 in
  (* first extract quoted phrases *)
  let '(self, processed_query) := preprocess_query self query in
  (* then parse the Boolean expression *)
  match algebra_parse processed_query with
  | Return e => (self, Return e)
  | Raise e => (self, Raise ("Invalid Boolean query: " +:+ e))
  end.

(** The parsing step of [main]: the parser object after it, and the parsed
    query or the error shown to the user. *)
Definition parse_step (search_query : string)
  : BooleanSearchParser * result Expression :=
  let bsp := new_parser in
  if str_in "AND" search_query || str_in "OR" search_query
     || str_in "NOT" search_query || str_in (String dquote "") search_query
  then parse_query bsp search_query
  else (bsp, Return (Symbol (str_lower search_query))).

End Parser.

(** ** Token sequences

    The token lists the normalizer is specified by: the tokens of the
    cleaned text, their adjacent bigrams, and the two halves of every long
    token. *)

Definition base_tokens (text : string) : list string := str_split (cleanup text).

Fixpoint bigrams (words : list string) : list string :=
  match words with
  | a :: ((b :: _) as rest) => (a +:+ b) :: bigrams rest
  | _ => []
  end.

Definition half_fragments (tok : string) : list string :=
  if 8 <? String.length tok
  then [str_take (String.length tok / 2) tok; str_drop (String.length tok / 2) tok]
  else [].

(** A token: non-empty and free of whitespace. *)
Definition is_token (w : string) : Prop :=
  w <> "" /\ str_forall is_nonspace w = true.

(** The text added by appending each of [ws] after a space. *)
Fixpoint tail_text (ws : list string) : string :=
  match ws with
  | [] => ""
  | w :: ws' => " " +:+ w +:+ tail_text ws'
  end.

(** Every maximal run of whitespace replaced by one space. *)
Fixpoint squeeze (s : string) : string :=
  match s with
  | "" => ""
  | String c s' =>
      if is_space c then
        match s' with
        | String c' _ => if is_space c' then squeeze s' else String space (squeeze s')
        | "" => String space ""
        end
      else String c (squeeze s')
  end.

(** The pieces of a scanned query with the matches replaced, in order, by
    the placeholders numbered from [n]. *)
Fixpoint substitute (n : nat) (ps : list piece) : string :=
  match ps with
  | [] => ""
  | Lit c :: ps' => String c (substitute n ps')
  | Hit _ :: ps' => placeholder n +:+ substitute (S n) ps'
  end.

(** The text a list of pieces was cut from. *)
Definition spell (ps : list piece) : string := rebuild (fun t => t) ps.

(** The query text of a quoted phrase: [s] between quotation marks. *)
Definition qt (s : string) : string := String dquote (s +:+ String dquote "").

(** A match of the quoted-phrase pattern is a non-empty phrase without
    quotation marks between two quotation marks, and group 1 is the phrase. *)
Definition quoted_span (p : piece) : Prop :=
  match p with
  | Lit _ => True
  | Hit t =>
      exists phrase : string,
        t = qt phrase /\ phrase <> ""
        /\ str_forall is_notquote phrase = true
        /\ quoted_group t = phrase
  end.

(** A matcher never claims more characters than the text has. *)
Definition bounded (m : matcher) : Prop :=
  forall prev s n, m prev s = Some n -> n <= String.length s.

(** ** Search driver *)

(** The search loop of [main]: every document is flattened, normalized and
    evaluated, and the matching ones are appended to [matching_docs]. *)
Definition search_resumes (parsed_query : Expression)
  (quoted_phrases : gmap string string) (docs : list value) : list value :=
  fold_left
    (fun matching_docs doc =>
       let raw_text := flatten_json doc in
       let norm_text := normalize raw_text in
       if evaluate_expression parsed_query norm_text (Some quoted_phrases)
       then matching_docs ++ [doc]
       else matching_docs)
    docs [].

(** What the query path of [main] ends in: the prompt for a query, the
    parse error shown to the user, or the matching documents. *)
Inductive outcome :=
  | NoQuery
  | ParseError (e : string)
  | Matches (matching_docs : list value).

Section Main.

Variable algebra_parse : string -> result Expression.

(** The query path of [main], from the empty-query test to the end of the
    search loop; [docs] is the list loaded from the collection and
    [ParseError] carries the exception text that is displayed. *)
Definition main_search (search_query : string) (docs : list value) : outcome :=
  match search_query with
  | "" => NoQuery
  | _ =>
      match parse_step algebra_parse search_query with
      | (_, Raise e) => ParseError e
      | (bsp, Return parsed_query) =>
          Matches (search_resumes parsed_query (quoted_phrases bsp) docs)
      end
  end.

End Main.

(** A character that is neither a word character nor whitespace: what the
    symbol strip of [normalize] replaces. *)
Definition is_symbol (c : ascii) : bool := negb (is_word c || is_space c).

(** A character that [str.lower] leaves alone. *)
Definition is_lowered (c : ascii) : bool := Ascii.eqb (chr_lower c) c.

(** A character of normalized text: the space, or a word character in
    lower case. *)
Definition is_clean (c : ascii) : bool :=
  Ascii.eqb c space || (is_word c && is_lowered c).

(** The tokens longer than 8 characters. *)
Definition long_tokens (words : list string) : list string :=
  List.filter (fun tok => 8 <? String.length tok) words.

(** ** Boolean grammar *)

(** Modelled from the spec: the tokens of the boolean grammar that
    [self.algebra.parse] reads. The parser belongs to the boolean-algebra
    library and is not in the source; the spec names the operators [AND],
    [OR] and [NOT], parenthesized grouping, and terms for every other
    token. *)
Inductive token :=
  | TAND
  | TOR
  | TNOT
  | TLPAR
  | TRPAR
  | TSYM (text : string).

Definition lparen : ascii := ascii_of_nat 40.
Definition rparen : ascii := ascii_of_nat 41.

(** Modelled from the spec: a word is an operator when it is one of the
    reserved words, and a term holding its literal text otherwise. *)
Definition word_token (w : string) : token :=
  if String.eqb w "AND" then TAND
  else if String.eqb w "OR" then TOR
  else if String.eqb w "NOT" then TNOT
  else TSYM w.

Definition flush_word (w : string) (ts : list token) : list token :=
  match w with "" => ts | _ => word_token w :: ts end.

(** Modelled from the spec: the query is cut into words at whitespace and
    parentheses, and each parenthesis is a token of its own. [tokenize_go s]
    is the word in progress at the head of [s] and the tokens after it. *)
Fixpoint tokenize_go (s : string) : string * list token :=
  match s with
  | "" => ("", [])
  | String c s' =>
      let '(w, ts) := tokenize_go s' in
      if is_space c then ("", flush_word w ts)
      else if Ascii.eqb c lparen then ("", TLPAR :: flush_word w ts)
      else if Ascii.eqb c rparen then ("", TRPAR :: flush_word w ts)
      else (String c w, ts)
  end.

Definition tokenize (s : string) : list token :=
  let '(w, ts) := tokenize_go s in flush_word w ts.

(** Modelled from the spec: a well-formed boolean expression is a term, the
    prefix operator [NOT] before an expression, two expressions around the
    infix operator [AND] or [OR], or an expression between parentheses. *)
Inductive well_formed : list token -> Prop :=
  | wf_term (text : string) : well_formed [TSYM text]
  | wf_not (e : list token) : well_formed e -> well_formed (TNOT :: e)
  | wf_and (a b : list token) :
      well_formed a -> well_formed b -> well_formed (a ++ TAND :: b)
  | wf_or (a b : list token) :
      well_formed a -> well_formed b -> well_formed (a ++ TOR :: b)
  | wf_group (e : list token) :
      well_formed e -> well_formed (TLPAR :: e ++ [TRPAR]).

(** The three kinds of syntax error the spec lists, on the tokens of a
    query: nothing to parse; different numbers of opening and closing
    parentheses; an operator with a missing operand at either end. *)
Definition empty_expression (ts : list token) : bool :=
  match ts with [] => true | _ => false end.

Fixpoint count_lparen (ts : list token) : nat :=
  match ts with
  | [] => 0
  | TLPAR :: ts' => S (count_lparen ts')
  | _ :: ts' => count_lparen ts'
  end.

Fixpoint count_rparen (ts : list token) : nat :=
  match ts with
  | [] => 0
  | TRPAR :: ts' => S (count_rparen ts')
  | _ :: ts' => count_rparen ts'
  end.

Definition unbalanced_parentheses (ts : list token) : bool :=
  negb (count_lparen ts =? count_rparen ts).

Definition is_operator (t : token) : bool :=
  match t with TAND | TOR | TNOT => true | _ => false end.

Definition is_infix (t : token) : bool :=
  match t with TAND | TOR => true | _ => false end.

Definition dangling_operator (ts : list token) : bool :=
  match ts with
  | [] => false
  | t :: _ => is_infix t || is_operator (List.last ts t)
  end.

(** The levels of the grammar, loosest first: disjunctions, conjunctions,
    and negations with terms and groups. *)
Inductive level := LOr | LAnd | LNot.

Definition wrap (op : list Expression -> Expression) (xs : list Expression)
  : Expression :=
  match xs with [e] => e | _ => op xs end.

(** Modelled from the spec: the parser of the boolean grammar, by recursive
    descent with [NOT] binding tighter than [AND] and [AND] tighter than
    [OR]. [descend fuel lv ts] reads the longest expression of level [lv] at
    the head of [ts] and returns its operands (one expression at level
    [LNot]) with the tokens left over; a chain of the same operator gives
    one node with all its operands. *)
Fixpoint descend (fuel : nat) (lv : level) (ts : list token)
  : option (list Expression * list token) :=
  match fuel with
  | 0 => None
  | S fuel =>
      match lv with
      | LOr =>
          match descend fuel LAnd ts with
          | Some (xs, TOR :: rest) =>
              match descend fuel LOr rest with
              | Some (ys, rest') => Some (wrap AND xs :: ys, rest')
              | None => None
              end
          | Some (xs, rest) => Some ([wrap AND xs], rest)
          | None => None
          end
      | LAnd =>
          match descend fuel LNot ts with
          | Some (xs, TAND :: rest) =>
              match descend fuel LAnd rest with
              | Some (ys, rest') => Some (xs ++ ys, rest')
              | None => None
              end
          | Some (xs, rest) => Some (xs, rest)
          | None => None
          end
      | LNot =>
          match ts with
          | TSYM text :: rest => Some ([Symbol text], rest)
          | TNOT :: rest =>
              match descend fuel LNot rest with
              | Some (xs, rest') => Some ([NOT (wrap OR xs)], rest')
              | None => None
              end
          | TLPAR :: rest =>
              match descend fuel LOr rest with
              | Some (xs, TRPAR :: rest') => Some ([wrap OR xs], rest')
              | _ => None
              end
          | _ => None
          end
      end
  end.

(** The message of a syntax error. *)
Definition syntax_error (ts : list token) : string :=
  if empty_expression ts then "Empty expression"
  else if unbalanced_parentheses ts then "Unbalanced parentheses"
  else "Invalid expression".

(** Modelled from the spec: [self.algebra.parse], missing from the source.
    It parses the whole query as one boolean expression and fails with a
    descriptive parse error on any syntax error. *)
Definition BooleanAlgebra_parse (expr : string) : result Expression :=
  let ts := tokenize expr in
  match descend (3 * length ts + 3) LOr ts with
  | Some (xs, []) => Return (wrap OR xs)
  | _ => Raise (syntax_error ts)
  end.

(** The grammar in layers, as the parser reads it: the token lists of each
    level. *)
Inductive derives : level -> list token -> Prop :=
  | d_term (text : string) : derives LNot [TSYM text]
  | d_not (n : list token) : derives LNot n -> derives LNot (TNOT :: n)
  | d_group (x : list token) : derives LOr x -> derives LNot (TLPAR :: x ++ [TRPAR])
  | d_and_one (n : list token) : derives LNot n -> derives LAnd n
  | d_and_more (n x : list token) :
      derives LNot n -> derives LAnd x -> derives LAnd (n ++ TAND :: x)
  | d_or_one (a : list token) : derives LAnd a -> derives LOr a
  | d_or_more (a x : list token) :
      derives LAnd a -> derives LOr x -> derives LOr (a ++ TOR :: x).

(** What may follow an expression of a level for the parser to stop there. *)
Definition may_follow (lv : level) (rest : list token) : Prop :=
  match lv, rest with
  | LOr, (TAND | TOR) :: _ => False
  | LAnd, TAND :: _ => False
  | _, _ => True
  end.

Definition level_fuel (lv : level) : nat :=
  match lv with LNot => 1 | LAnd => 2 | LOr => 3 end.

(** * Properties *)

(** ** Strings *)

Lemma app_nil_l_str (s : string) : "" +:+ s = s.
Proof. reflexivity. Qed.

Lemma app_cons_str (c : ascii) (a b : string) :
  String c a +:+ b = String c (a +:+ b).
Proof. reflexivity. Qed.

Lemma app_nil_r_str (s : string) : s +:+ "" = s.
Proof.
  induction s as [|c s IH]; [reflexivity|].
  rewrite app_cons_str, IH. reflexivity.
Qed.

Lemma app_assoc_str (a b c : string) : (a +:+ b) +:+ c = a +:+ (b +:+ c).
Proof.
  induction a as [|x a IH]; [reflexivity|].
  rewrite !app_cons_str, IH. reflexivity.
Qed.

Lemma length_app_str (a b : string) :
  String.length (a +:+ b) = String.length a + String.length b.
Proof.
  induction a as [|x a IH]; [reflexivity|].
  rewrite app_cons_str. simpl. rewrite IH. reflexivity.
Qed.

Lemma startswith_cons (a b : ascii) (p s : string) :
  str_startswith (String a p) (String b s) =
    if ascii_dec a b then str_startswith p s else false.
Proof. reflexivity. Qed.

Lemma startswith_app (p s : string) : str_startswith p (p +:+ s) = true.
Proof.
  induction p as [|c p IH]; [destruct s; reflexivity|].
  rewrite app_cons_str, startswith_cons.
  destruct (ascii_dec c c) as [_|Hne]; [exact IH | destruct Hne; reflexivity].
Qed.

Lemma str_in_here (needle hay : string) :
  str_startswith needle hay = true -> str_in needle hay = true.
Proof. intros H. destruct hay; cbn [str_in]; rewrite H; reflexivity. Qed.

Lemma str_in_app (pre needle post : string) :
  str_in needle (pre +:+ needle +:+ post) = true.
Proof.
  induction pre as [|c pre IH].
  - rewrite app_nil_l_str. apply str_in_here, startswith_app.
  - rewrite app_cons_str. cbn [str_in]. rewrite IH. apply orb_true_r.
Qed.

(** ** Evaluator *)

Lemma chr_lower_not_Q (c : ascii) : chr_lower c <> ascii_of_nat 81.
Proof.
  destruct c as [[] [] [] [] [] [] [] []]; vm_compute; discriminate.
Qed.

(** A lowercased term never has the upper-case placeholder prefix. *)
Lemma lower_not_placeholder (obj : string) :
  str_startswith "QUOTED_PHRASE_" (str_lower obj) = false.
Proof.
  destruct obj as [|c obj]; [reflexivity|].
  cbn [str_lower].
  change "QUOTED_PHRASE_" with (String (ascii_of_nat 81) "UOTED_PHRASE_").
  rewrite startswith_cons.
  destruct (ascii_dec _ (chr_lower c)) as [E|_]; [|reflexivity].
  exfalso. exact (chr_lower_not_Q c (eq_sym E)).
Qed.

Lemma evaluate_symbol_tiers (obj text : string) (qp : gmap string string) :
  evaluate_symbol obj text qp =
    if re_search (re_word (str_lower obj)) text then true
    else str_in (str_lower obj) text.
Proof.
  unfold evaluate_symbol. rewrite lower_not_placeholder. reflexivity.
Qed.

Lemma evaluate_Symbol (obj text : string) (qp : option (gmap string string)) :
  evaluate_expression (Symbol obj) text qp =
    if re_search (re_word (str_lower obj)) text then true
    else str_in (str_lower obj) text.
Proof. simpl. apply evaluate_symbol_tiers. Qed.

(** C1. The exact-phrase tier is meant to resolve a placeholder through the
    phrase table, but the evaluator lowercases the term before it tests the
    upper-case prefix [QUOTED_PHRASE_], so the tier never fires: every term
    is decided by the word-boundary and substring tiers alone. For the query
    of the quoted phrase [Machine Learning], preprocessing records
    [QUOTED_PHRASE_0 -> Machine Learning]; the lowercased phrase occurs in
    the text [machine learning], yet the placeholder term evaluates to
    false there. *)
Theorem placeholder_tier_never_fires :
  (forall (obj text : string) (qp : gmap string string),
     evaluate_expression (Symbol obj) text (Some qp) =
       (re_search (re_word (str_lower obj)) text || str_in (str_lower obj) text))
  /\ (let '(bsp, processed) := preprocess_query new_parser (qt "Machine Learning") in
      processed = "QUOTED_PHRASE_0"
      /\ quoted_phrases bsp !! processed = Some "Machine Learning"
      /\ str_in (str_lower "Machine Learning") "machine learning" = true
      /\ evaluate_expression (Symbol processed) "machine learning"
           (Some (quoted_phrases bsp)) = false).
Proof.
  split.
  - intros obj text qp. rewrite evaluate_Symbol.
    destruct (re_search _ text); reflexivity.
  - vm_compute. repeat split; reflexivity.
Qed.

(** C2. The evaluator has no branch for [NOT]: a negation node falls through
    to the final [return False], whatever its child evaluates to. With the
    text [java developer], the term [Python] evaluates to false and so does
    [NOT Python]. *)
Theorem not_node_evaluates_false :
  (forall (child : Expression) (text : string) (qp : option (gmap string string)),
     evaluate_expression (NOT child) text qp = false)
  /\ evaluate_expression (Symbol "Python") "java developer" None = false
  /\ evaluate_expression (NOT (Symbol "Python")) "java developer" None = false.
Proof.
  split; [intros; reflexivity|]. split; vm_compute; reflexivity.
Qed.

(** C4. For every term the evaluator first tries the word-boundary match of
    the lowercased term and falls back to the substring test only when that
    fails (every term, since the placeholder tier never fires, hence every
    non-placeholder term). For the text [i know java programming] and the
    term [program], the word-boundary match fails, the substring test
    succeeds and the term evaluates to true. *)
Theorem term_word_boundary_then_substring :
  (forall (obj text : string) (qp : option (gmap string string)),
     evaluate_expression (Symbol obj) text qp =
       if re_search (re_word (str_lower obj)) text then true
       else str_in (str_lower obj) text)
  /\ re_search (re_word (str_lower "program")) "i know java programming" = false
  /\ str_in (str_lower "program") "i know java programming" = true
  /\ evaluate_expression (Symbol "program") "i know java programming" None = true.
Proof.
  split; [exact evaluate_Symbol|]. repeat split; vm_compute; reflexivity.
Qed.

(** ** Query parser *)

(** C3. A raw query that contains none of [AND], [OR], [NOT] and no
    quotation mark is not handed to the parser: the parsing step yields the
    single term holding the lowercased query. *)
Theorem plain_query_is_single_term
  (algebra_parse : string -> result Expression) (search_query : string) :
  str_in "AND" search_query = false ->
  str_in "OR" search_query = false ->
  str_in "NOT" search_query = false ->
  str_in (String dquote "") search_query = false ->
  parse_step algebra_parse search_query =
    (new_parser, Return (Symbol (str_lower search_query))).
Proof.
  intros Hand Hor Hnot Hq. unfold parse_step.
  rewrite Hand, Hor, Hnot, Hq. reflexivity.
Qed.

Lemma plain_query_is_single_term_witness :
  parse_step (fun _ => Raise "unused") "Python" =
    (new_parser, Return (Symbol "python")).
Proof.
  apply (plain_query_is_single_term (fun _ => Raise "unused") "Python");
    reflexivity.
Defined.

(** Whatever the grammar is: when it rejects the placeholder-substituted
    query, [parse_query] raises an error whose message is
    [Invalid Boolean query: ] followed by the grammar's message, and returns
    no tree; when it accepts, [parse_query] returns the tree it built. *)
Lemma parse_query_wraps_grammar
  (algebra_parse : string -> result Expression)
  (self : BooleanSearchParser) (query : string) :
  let processed := (preprocess_query new_parser query).2 in
  (forall e : string,
     algebra_parse processed = Raise e ->
     (parse_query algebra_parse self query).2 =
       Raise ("Invalid Boolean query: " +:+ e)
     /\ str_in e ("Invalid Boolean query: " +:+ e) = true)
  /\ (forall t : Expression,
        algebra_parse processed = Return t ->
        (parse_query algebra_parse self query).2 = Return t).
Proof.
  unfold parse_query. cbn [quoted_phrases placeholder_counter].
  change (mkParser ∅ 0) with new_parser.
  destruct (preprocess_query new_parser query) as [st processed].
  cbn [snd]. split.
  - intros e He. rewrite He. cbn [snd]. split; [reflexivity|].
    rewrite <- (app_nil_r_str e) at 2. apply str_in_app.
  - intros t Ht. rewrite Ht. reflexivity.
Qed.

(** ** Normalizer *)

(** C5. Normalizing [HuggingFace] gives [hugging face huggingface]: the
    CamelCase split and the case fold give [hugging face], the bigram of the
    two tokens adds [huggingface], and both are substrings of the result. *)
Theorem normalize_HuggingFace :
  str_lower (re_sub re_camel camel_repl "HuggingFace") = "hugging face"
  /\ inject_bigrams ["hugging"; "face"] "hugging face" = "hugging face huggingface"
  /\ normalize "HuggingFace" = "hugging face huggingface"
  /\ str_in "hugging face" (normalize "HuggingFace") = true
  /\ str_in "huggingface" (normalize "HuggingFace") = true.
Proof. repeat split; vm_compute; reflexivity. Qed.

(** ** Flattener *)

Section value_induction.
Variable P : value -> Prop.
Hypothesis Hstr : forall s, P (VStr s).
Hypothesis Hnum : forall n, P (VNum n).
Hypothesis Hbool : forall b, P (VBool b).
Hypothesis Hnull : P VNull.
Hypothesis Hlist : forall items, Forall P items -> P (VList items).
Hypothesis Hdict : forall items, Forall (fun kv => P kv.2) items -> P (VDict items).

Lemma value_nested_ind : forall x, P x.
Proof.
  fix IH 1.
  intros [s|n|b| |items|items];
    [apply Hstr | apply Hnum | apply Hbool | apply Hnull | | ].
  - apply Hlist. induction items as [|i items IHitems]; constructor.
    + apply IH.
    + exact IHitems.
  - apply Hdict. induction items as [|[k v] items IHitems]; constructor.
    + apply IH.
    + exact IHitems.
Qed.
End value_induction.

Lemma recurse_appends_leaves (x : value) :
  forall parts, recurse x parts = parts ++ string_leaves x.
Proof.
  induction x as [s|n|b| |items IH|items IH] using value_nested_ind;
    intros parts; cbn [recurse string_leaves];
    try (rewrite app_nil_r; reflexivity); try reflexivity.
  - revert parts. induction IH as [|i items Hi _ IHitems]; intros parts.
    + cbn. rewrite app_nil_r. reflexivity.
    + cbn [fold_left flat_map]. rewrite Hi, IHitems, app_assoc. reflexivity.
  - revert parts. induction IH as [|[k v] items Hv _ IHitems]; intros parts.
    + cbn. rewrite app_nil_r. reflexivity.
    + cbn [fold_left flat_map]. cbn [snd] in Hv.
      rewrite Hv, IHitems, app_assoc. reflexivity.
Qed.

(** C9. The flattener returns, for every document, the space-joined string
    leaves in depth-first, original order; numbers, booleans and null add
    nothing; the function is total. Flattening [{a: x, b: [y, z]}] gives
    [x y z]. *)
Theorem flatten_json_joins_string_leaves :
  (forall obj : value, flatten_json obj = str_join " " (string_leaves obj))
  /\ (forall (n : Z) (b : bool) (parts : list string),
        recurse (VNum n) parts = parts
        /\ recurse (VBool b) parts = parts
        /\ recurse VNull parts = parts)
  /\ flatten_json (VDict [("a", VStr "x"); ("b", VList [VStr "y"; VStr "z"])])
     = "x y z".
Proof.
  split; [|split].
  - intros obj. unfold flatten_json. rewrite recurse_appends_leaves. reflexivity.
  - intros n b parts. repeat split; reflexivity.
  - reflexivity.
Qed.

(** ** Tokenization *)

Lemma flush_app (w : string) (ws ws' : list string) :
  flush w ws ++ ws' = flush w (ws ++ ws').
Proof. destruct w; reflexivity. Qed.

Lemma split_go_app (a : string) (c : ascii) (b : string) :
  is_space c = true ->
  split_go (a +:+ String c b) =
    let '(w, ws) := split_go a in (w, ws ++ str_split b).
Proof.
  intros Hc. induction a as [|x a IH].
  - rewrite app_nil_l_str. cbn [split_go]. unfold str_split.
    destruct (split_go b) as [w ws]. rewrite Hc. reflexivity.
  - rewrite app_cons_str. cbn [split_go]. rewrite IH.
    destruct (split_go a) as [w ws].
    destruct (is_space x); [rewrite flush_app|]; reflexivity.
Qed.

Lemma str_split_app (a : string) (c : ascii) (b : string) :
  is_space c = true ->
  str_split (a +:+ String c b) = str_split a ++ str_split b.
Proof.
  intros Hc. unfold str_split at 1 2. rewrite (split_go_app a c b Hc).
  destruct (split_go a) as [w ws]. rewrite flush_app. reflexivity.
Qed.

Lemma str_split_space (c : ascii) (s : string) :
  is_space c = true -> str_split (String c s) = str_split s.
Proof.
  intros Hc. unfold str_split. cbn [split_go].
  destruct (split_go s) as [w ws]. rewrite Hc. reflexivity.
Qed.

Lemma split_go_nonspace (w : string) :
  str_forall is_nonspace w = true -> split_go w = (w, []).
Proof.
  induction w as [|c w IH]; [reflexivity|].
  cbn [str_forall split_go]. intros [Hc Hw]%andb_true_iff.
  rewrite (IH Hw). unfold is_nonspace in Hc.
  destruct (is_space c); [discriminate | reflexivity].
Qed.

Lemma str_split_token (w : string) : is_token w -> str_split w = [w].
Proof.
  intros [Hne Hw]. unfold str_split. rewrite (split_go_nonspace w Hw).
  destruct w; [contradiction | reflexivity].
Qed.

Lemma split_go_tokens (s : string) :
  str_forall is_nonspace (split_go s).1 = true /\ Forall is_token (split_go s).2.
Proof.
  induction s as [|c s [IHw IHws]]; [split; [reflexivity | constructor]|].
  cbn [split_go]. destruct (split_go s) as [w ws]. cbn [fst snd] in *.
  destruct (is_space c) eqn:Hc; cbn [fst snd].
  - split; [reflexivity|]. destruct w as [|x w]; [exact IHws|].
    constructor; [split; [discriminate | exact IHw] | exact IHws].
  - split; [|exact IHws]. cbn [str_forall]. unfold is_nonspace at 1.
    rewrite Hc, IHw. reflexivity.
Qed.

Lemma str_split_tokens (s : string) : Forall is_token (str_split s).
Proof.
  unfold str_split. destruct (split_go_tokens s) as [Hw Hws].
  destruct (split_go s) as [w ws]. cbn [fst snd] in *.
  destruct w as [|x w]; [exact Hws|].
  constructor; [split; [discriminate | exact Hw] | exact Hws].
Qed.

Lemma tail_text_cons (w : string) (ws : list string) :
  tail_text (w :: ws) = String space (w +:+ tail_text ws).
Proof. reflexivity. Qed.

Lemma tail_text_app (l1 l2 : list string) :
  tail_text (l1 ++ l2) = tail_text l1 +:+ tail_text l2.
Proof.
  induction l1 as [|w l1 IH]; [reflexivity|].
  cbn [app]. rewrite !tail_text_cons, IH, app_cons_str, app_assoc_str.
  reflexivity.
Qed.

Lemma is_space_space : is_space space = true.
Proof. reflexivity. Qed.

Lemma str_split_app_tail (a : string) (ws : list string) :
  str_split (a +:+ tail_text ws) = str_split a ++ str_split (tail_text ws).
Proof.
  destruct ws as [|w ws].
  - cbn [tail_text]. rewrite app_nil_r_str.
    change (str_split "") with (@nil string). rewrite app_nil_r. reflexivity.
  - rewrite tail_text_cons, (str_split_space _ _ is_space_space).
    apply str_split_app, is_space_space.
Qed.

Lemma str_split_tail_text (ws : list string) :
  Forall is_token ws -> str_split (tail_text ws) = ws.
Proof.
  induction 1 as [|w ws Hw _ IH]; [reflexivity|].
  rewrite tail_text_cons, (str_split_space _ _ is_space_space).
  rewrite str_split_app_tail, (str_split_token w Hw), IH. reflexivity.
Qed.

Lemma str_join_tail (w : string) (ws : list string) :
  str_join " " (w :: ws) = w +:+ tail_text ws.
Proof.
  revert w. induction ws as [|x ws IH]; intros w.
  - cbn [str_join tail_text]. rewrite app_nil_r_str. reflexivity.
  - change (str_join " " (w :: x :: ws)) with (w +:+ " " +:+ str_join " " (x :: ws)).
    rewrite IH. reflexivity.
Qed.

Lemma str_split_join (ws : list string) :
  Forall is_token ws -> str_split (str_join " " ws) = ws.
Proof.
  intros H. destruct H as [|w ws Hw Hws]; [reflexivity|].
  rewrite str_join_tail, str_split_app_tail.
  rewrite (str_split_token w Hw), (str_split_tail_text ws Hws). reflexivity.
Qed.

(** ** Whitespace collapse *)

Lemma squeeze_run (s : string) :
  forall c, is_space c = true ->
  squeeze (String c s) = String space (squeeze (str_drop (run_len is_space s) s)).
Proof.
  induction s as [|x s IH]; intros c Hc.
  - cbn. rewrite Hc. reflexivity.
  - cbn [squeeze run_len] in *. rewrite Hc.
    destruct (is_space x) eqn:Hx.
    + cbn [str_drop]. rewrite <- (IH x Hx), Hx. reflexivity.
    + cbn [str_drop squeeze]. rewrite Hx. reflexivity.
Qed.

Lemma scan_spaces_squeeze (s : string) :
  forall k p, k <= run_len is_space s ->
  rebuild (fun _ => " ") (scan_go re_spaces k p s) = squeeze (str_drop k s).
Proof.
  induction s as [|c s IH]; intros k p Hk.
  - destruct k; reflexivity.
  - destruct k as [|k].
    + cbn [scan_go str_drop]. unfold re_spaces at 1. cbn [run_len].
      destruct (is_space c) eqn:Hc.
      * cbn [rebuild]. rewrite (IH _ _ (le_n _)), (squeeze_run s c Hc).
        reflexivity.
      * cbn [rebuild]. rewrite (IH 0 _ (Nat.le_0_l _)).
        cbn [str_drop squeeze]. rewrite Hc.
        destruct s; reflexivity.
    + cbn [run_len] in Hk. cbn [scan_go str_drop].
      destruct (is_space c); [|lia].
      apply IH. lia.
Qed.

Lemma re_sub_spaces (s : string) :
  re_sub re_spaces (fun _ => " ") s = squeeze s.
Proof.
  unfold re_sub, re_finditer.
  rewrite (scan_spaces_squeeze s 0 None (Nat.le_0_l _)). destruct s; reflexivity.
Qed.

Lemma rstrip_cons_nonspace (c : ascii) (s : string) :
  is_space c = false -> str_rstrip (String c s) = String c (str_rstrip s).
Proof.
  intros Hc. cbn [str_rstrip]. rewrite Hc. destruct (str_rstrip s); reflexivity.
Qed.

Lemma rstrip_cons_keep (c : ascii) (s : string) :
  str_rstrip s <> "" -> str_rstrip (String c s) = String c (str_rstrip s).
Proof.
  intros Hne. cbn [str_rstrip]. destruct (str_rstrip s); [contradiction | reflexivity].
Qed.

Lemma rstrip_squeeze (s : string) :
  str_rstrip (squeeze s) = (split_go s).1 +:+ tail_text (split_go s).2.
Proof.
  induction s as [|c s IH]; [reflexivity|].
  cbn [squeeze split_go]. destruct (is_space c) eqn:Hc.
  - destruct s as [|x s].
    + reflexivity.
    + revert IH. cbn [split_go squeeze].
      destruct (split_go s) as [w ws]. destruct (is_space x) eqn:Hx.
      * cbn [fst snd]. intros IH. exact IH.
      * cbn [fst snd]. intros IH. rewrite app_nil_l_str.
        cbn [flush]. rewrite tail_text_cons, <- IH.
        apply rstrip_cons_keep. rewrite IH, app_cons_str. discriminate.
  - rewrite (rstrip_cons_nonspace _ _ Hc), IH.
    destruct (split_go s) as [w ws]. reflexivity.
Qed.

Lemma lstrip_squeeze (s : string) :
  str_lstrip (squeeze s) = squeeze (str_lstrip s).
Proof.
  induction s as [|c s IH]; [reflexivity|].
  cbn [squeeze str_lstrip]. destruct (is_space c) eqn:Hc.
  - destruct s as [|x s]; [reflexivity|].
    destruct (is_space x) eqn:Hx; [exact IH|].
    cbn [str_lstrip]. rewrite is_space_space. exact IH.
  - cbn [str_lstrip squeeze]. rewrite Hc. reflexivity.
Qed.

Lemma str_split_lstrip (s : string) : str_split (str_lstrip s) = str_split s.
Proof.
  induction s as [|c s IH]; [reflexivity|].
  cbn [str_lstrip]. destruct (is_space c) eqn:Hc; [|reflexivity].
  rewrite (str_split_space c s Hc). exact IH.
Qed.

Lemma split_go_lstrip (s : string) :
  (split_go (str_lstrip s)).1 = "" -> (split_go (str_lstrip s)).2 = [].
Proof.
  induction s as [|c s IH]; [reflexivity|].
  cbn [str_lstrip]. destruct (is_space c) eqn:Hc; [exact IH|].
  cbn [split_go]. destruct (split_go s) as [w ws]. rewrite Hc.
  cbn [fst]. discriminate.
Qed.

(** Collapsing whitespace and stripping the ends is joining the tokens with
    single spaces. *)
Lemma strip_squeeze_join (s : string) :
  str_strip (squeeze s) = str_join " " (str_split s).
Proof.
  unfold str_strip. rewrite lstrip_squeeze, rstrip_squeeze.
  rewrite <- (str_split_lstrip s). unfold str_split.
  pose proof (split_go_lstrip s) as Hnil.
  destruct (split_go (str_lstrip s)) as [w ws]. cbn [fst snd] in *.
  destruct w as [|x w].
  - rewrite (Hnil eq_refl). reflexivity.
  - cbn [flush]. rewrite str_join_tail. reflexivity.
Qed.

(** ** Augmentation *)

Lemma fold_append_tail {A : Type} (f : A -> string) (l : list A) :
  forall text,
  fold_left (fun text x => text +:+ " " +:+ f x) l text =
    text +:+ tail_text (map f l).
Proof.
  induction l as [|x l IH]; intros text.
  - cbn. rewrite app_nil_r_str. reflexivity.
  - cbn [fold_left map]. rewrite IH, tail_text_cons.
    change (String space (f x +:+ tail_text (map f l)))
      with (" " +:+ f x +:+ tail_text (map f l)).
    rewrite !app_assoc_str. reflexivity.
Qed.

Lemma bigrams_by_index (words : list string) :
  map (fun i => nth i words "" +:+ nth (i + 1) words "")
      (seq 0 (length words - 1)) = bigrams words.
Proof.
  induction words as [|a rest IH]; [reflexivity|].
  destruct rest as [|b r]; [reflexivity|].
  replace (length (a :: b :: r) - 1) with (S (length r)) by (cbn; lia).
  replace (length (b :: r) - 1) with (length r) in IH by (cbn; lia).
  change (bigrams (a :: b :: r)) with ((a +:+ b) :: bigrams (b :: r)).
  rewrite <- IH. cbn [seq map]. rewrite <- seq_shift, map_map.
  reflexivity.
Qed.

Lemma inject_bigrams_tail (words : list string) (text : string) :
  inject_bigrams words text = text +:+ tail_text (bigrams words).
Proof.
  unfold inject_bigrams.
  rewrite (fold_append_tail (fun i => nth i words "" +:+ nth (i + 1) words "")).
  rewrite bigrams_by_index. reflexivity.
Qed.

Lemma inject_halves_tail (words : list string) :
  forall text,
  inject_halves words text = text +:+ tail_text (flat_map half_fragments words).
Proof.
  unfold inject_halves.
  induction words as [|tok words IH]; intros text.
  - cbn. rewrite app_nil_r_str. reflexivity.
  - cbn [fold_left flat_map]. rewrite IH, tail_text_app.
    unfold half_fragments at 2. destruct (8 <? String.length tok).
    + cbn [tail_text]. rewrite app_nil_r_str, !app_assoc_str. reflexivity.
    + cbn [tail_text]. rewrite app_nil_l_str. reflexivity.
Qed.

Lemma str_forall_app (p : ascii -> bool) (a b : string) :
  str_forall p (a +:+ b) = str_forall p a && str_forall p b.
Proof.
  induction a as [|c a IH]; [reflexivity|].
  rewrite app_cons_str. cbn [str_forall]. rewrite IH, andb_assoc. reflexivity.
Qed.

Lemma is_token_app (a b : string) : is_token a -> is_token b -> is_token (a +:+ b).
Proof.
  intros [Ha Hfa] [_ Hfb]. split.
  - destruct a; [contradiction | rewrite app_cons_str; discriminate].
  - rewrite str_forall_app, Hfa, Hfb. reflexivity.
Qed.

Lemma bigrams_tokens (words : list string) :
  Forall is_token words -> Forall is_token (bigrams words).
Proof.
  induction 1 as [|a rest Ha Hrest IH]; [constructor|].
  destruct Hrest as [|b r Hb Hr]; [constructor|].
  cbn [bigrams]. constructor; [apply is_token_app; assumption | exact IH].
Qed.

Lemma take_drop_str (n : nat) (s : string) : str_take n s +:+ str_drop n s = s.
Proof.
  revert s. induction n as [|n IH]; intros [|c s]; try reflexivity.
  cbn [str_take str_drop]. rewrite app_cons_str, IH. reflexivity.
Qed.

Lemma length_take_str (n : nat) (s : string) :
  n <= String.length s -> String.length (str_take n s) = n.
Proof.
  revert s. induction n as [|n IH]; intros [|c s] Hn; cbn in *;
    try reflexivity; try lia.
  rewrite IH; [reflexivity | lia].
Qed.

Lemma length_drop_str (n : nat) (s : string) :
  String.length (str_drop n s) = String.length s - n.
Proof.
  revert s. induction n as [|n IH]; intros [|c s]; cbn; try reflexivity.
  apply IH.
Qed.

Lemma str_forall_take (p : ascii -> bool) (n : nat) (s : string) :
  str_forall p s = true -> str_forall p (str_take n s) = true.
Proof.
  revert s. induction n as [|n IH]; intros [|c s]; cbn; try reflexivity.
  intros [Hc Hs]%andb_true_iff. rewrite Hc, (IH s Hs). reflexivity.
Qed.

Lemma str_forall_drop (p : ascii -> bool) (n : nat) (s : string) :
  str_forall p s = true -> str_forall p (str_drop n s) = true.
Proof.
  revert s. induction n as [|n IH]; intros [|c s]; cbn; try (intros H; exact H).
  intros [_ Hs]%andb_true_iff. exact (IH s Hs).
Qed.

Lemma length_pos_nonempty (s : string) : 0 < String.length s -> s <> "".
Proof. destruct s; cbn; [lia | discriminate]. Qed.

Lemma half_bounds (n : nat) : 8 < n -> 0 < n / 2 /\ n / 2 < n.
Proof.
  intros Hn. split.
  - apply Nat.div_str_pos. lia.
  - apply Nat.div_lt; lia.
Qed.

(** The two halves of a long token. *)
Lemma half_fragments_long (tok : string) :
  8 < String.length tok ->
  half_fragments tok =
    [str_take (String.length tok / 2) tok; str_drop (String.length tok / 2) tok]
  /\ String.length (str_take (String.length tok / 2) tok) = String.length tok / 2
  /\ String.length (str_drop (String.length tok / 2) tok)
     = String.length tok - String.length tok / 2
  /\ str_take (String.length tok / 2) tok +:+ str_drop (String.length tok / 2) tok
     = tok.
Proof.
  intros Hlen. destruct (half_bounds _ Hlen) as [Hpos Hlt].
  unfold half_fragments. rewrite (proj2 (Nat.ltb_lt _ _) Hlen).
  repeat split.
  - apply length_take_str. lia.
  - apply length_drop_str.
  - apply take_drop_str.
Qed.

Lemma half_fragments_short (tok : string) :
  String.length tok <= 8 -> half_fragments tok = [].
Proof.
  intros Hlen. unfold half_fragments.
  rewrite (proj2 (Nat.ltb_ge _ _) Hlen). reflexivity.
Qed.

Lemma half_fragments_tokens (tok : string) :
  is_token tok -> Forall is_token (half_fragments tok).
Proof.
  intros [_ Hf]. destruct (Nat.le_gt_cases (String.length tok) 8) as [Hle|Hgt].
  - rewrite (half_fragments_short tok Hle). constructor.
  - destruct (half_fragments_long tok Hgt) as (-> & Hl1 & Hl2 & _).
    destruct (half_bounds _ Hgt) as [Hpos Hlt].
    repeat constructor.
    + apply length_pos_nonempty. lia.
    + apply str_forall_take, Hf.
    + apply length_pos_nonempty. lia.
    + apply str_forall_drop, Hf.
Qed.

Lemma halves_tokens (words : list string) :
  Forall is_token words -> Forall is_token (flat_map half_fragments words).
Proof.
  induction 1 as [|tok words Htok _ IH]; [constructor|].
  cbn [flat_map]. apply Forall_app. split; [apply half_fragments_tokens, Htok | exact IH].
Qed.

(** The normalized text is the base tokens, then the bigrams, then the
    halves, joined by single spaces. *)
Lemma normalize_join (text : string) :
  normalize text =
    str_join " "
      (base_tokens text ++ bigrams (base_tokens text)
       ++ flat_map half_fragments (base_tokens text)).
Proof.
  unfold normalize, base_tokens.
  set (t := cleanup text). set (words := str_split t).
  rewrite re_sub_spaces, strip_squeeze_join.
  rewrite inject_halves_tail, inject_bigrams_tail, app_assoc_str.
  rewrite <- tail_text_app, str_split_app_tail.
  rewrite str_split_tail_text; [reflexivity|].
  pose proof (str_split_tokens t) as Hw.
  apply Forall_app. split; [apply bigrams_tokens | apply halves_tokens]; exact Hw.
Qed.

Lemma normalize_tokens (text : string) :
  str_split (normalize text) =
    base_tokens text ++ bigrams (base_tokens text)
    ++ flat_map half_fragments (base_tokens text).
Proof.
  rewrite normalize_join. apply str_split_join.
  pose proof (str_split_tokens (cleanup text)) as Hw. unfold base_tokens.
  repeat (apply Forall_app; split);
    [exact Hw | apply bigrams_tokens, Hw | apply halves_tokens, Hw].
Qed.

(** C10. The tokens of the normalized text are the tokens of the cleaned
    text (after the CamelCase split, the case fold, the noise removal, the
    copies of quoted phrases and the symbol strip), in their order, followed
    by the bigrams of adjacent tokens and then by the halves of the long
    tokens; the text itself is these tokens joined by single spaces. *)
Theorem normalize_appends_bigrams_then_halves (text : string) :
  str_split (normalize text) =
    base_tokens text ++ bigrams (base_tokens text)
    ++ flat_map half_fragments (base_tokens text)
  /\ normalize text =
       str_join " "
         (base_tokens text ++ bigrams (base_tokens text)
          ++ flat_map half_fragments (base_tokens text)).
Proof. split; [apply normalize_tokens | apply normalize_join]. Qed.

(** C6. The fragments appended by the normalizer are those of
    [half_fragments] over the tokens of the cleaned text, and for a token
    longer than 8 characters these are exactly two: its first [len / 2]
    characters and the remaining [len - len / 2], whose concatenation is the
    token. *)
Theorem long_token_half_split (text tok : string) :
  In tok (base_tokens text) ->
  8 < String.length tok ->
  str_split (normalize text) =
    base_tokens text ++ bigrams (base_tokens text)
    ++ flat_map half_fragments (base_tokens text)
  /\ exists a b : string,
       half_fragments tok = [a; b]
       /\ a = str_take (String.length tok / 2) tok
       /\ String.length a = String.length tok / 2
       /\ String.length b = String.length tok - String.length tok / 2
       /\ a +:+ b = tok.
Proof.
  intros _ Hlen. split; [apply normalize_tokens|].
  destruct (half_fragments_long tok Hlen) as (Hf & Hl1 & Hl2 & Hcat).
  exists (str_take (String.length tok / 2) tok),
         (str_drop (String.length tok / 2) tok).
  repeat split; assumption.
Qed.

Lemma long_token_half_split_witness :
  str_split (normalize "internationalization") =
    base_tokens "internationalization"
    ++ bigrams (base_tokens "internationalization")
    ++ flat_map half_fragments (base_tokens "internationalization")
  /\ exists a b : string,
       half_fragments "internationalization" = [a; b]
       /\ a = str_take (String.length "internationalization" / 2) "internationalization"
       /\ String.length a = String.length "internationalization" / 2
       /\ String.length b =
            String.length "internationalization"
            - String.length "internationalization" / 2
       /\ a +:+ b = "internationalization".
Proof.
  apply (long_token_half_split "internationalization" "internationalization").
  - vm_compute. left. reflexivity.
  - vm_compute. lia.
Defined.

Example normalize_internationalization :
  normalize "internationalization" = "internationalization internatio nalization".
Proof. vm_compute. reflexivity. Qed.

(** ** Phrase table *)

Lemma placeholder_inj (n m : nat) : placeholder n = placeholder m -> n = m.
Proof.
  unfold placeholder. intros H.
  apply (inj (String.app "QUOTED_PHRASE_")) in H.
  exact (inj pretty _ _ H).
Qed.

Section preprocess.
Implicit Types (ps : list piece) (st : BooleanSearchParser).

Lemma rebuild_lit_state c ps st :
  (rebuild_with replace_quoted (Lit c :: ps) st).1 =
    (rebuild_with replace_quoted ps st).1.
Proof.
  cbn [rebuild_with]. destruct (rebuild_with replace_quoted ps st). reflexivity.
Qed.

Lemma rebuild_lit_output c ps st :
  (rebuild_with replace_quoted (Lit c :: ps) st).2 =
    String c (rebuild_with replace_quoted ps st).2.
Proof.
  cbn [rebuild_with]. destruct (rebuild_with replace_quoted ps st). reflexivity.
Qed.

Lemma rebuild_hit_state t ps st :
  (rebuild_with replace_quoted (Hit t :: ps) st).1 =
    (rebuild_with replace_quoted ps (replace_quoted st t).1).1.
Proof.
  cbn [rebuild_with]. destruct (replace_quoted st t) as [st1 r]. cbn [fst].
  destruct (rebuild_with replace_quoted ps st1). reflexivity.
Qed.

Lemma rebuild_hit_output t ps st :
  (rebuild_with replace_quoted (Hit t :: ps) st).2 =
    placeholder (placeholder_counter st)
    +:+ (rebuild_with replace_quoted ps (replace_quoted st t).1).2.
Proof.
  cbn [rebuild_with]. set (st1 := (replace_quoted st t).1).
  change (replace_quoted st t) with (st1, placeholder (placeholder_counter st)).
  cbn beta iota. destruct (rebuild_with replace_quoted ps st1). reflexivity.
Qed.

Lemma replace_quoted_counter st t :
  placeholder_counter (replace_quoted st t).1 = placeholder_counter st + 1.
Proof. reflexivity. Qed.

Lemma replace_quoted_table st t :
  quoted_phrases (replace_quoted st t).1 =
    <[placeholder (placeholder_counter st) := quoted_group t]> (quoted_phrases st).
Proof. reflexivity. Qed.

Lemma rebuild_counter ps : forall st,
  placeholder_counter (rebuild_with replace_quoted ps st).1 =
    placeholder_counter st + length (hits quoted_group ps).
Proof.
  induction ps as [|[c|t] ps IH]; intros st.
  - cbn. lia.
  - rewrite rebuild_lit_state. apply IH.
  - rewrite rebuild_hit_state, IH, replace_quoted_counter. cbn [hits length]. lia.
Qed.

Lemma rebuild_output ps : forall st,
  (rebuild_with replace_quoted ps st).2 = substitute (placeholder_counter st) ps.
Proof.
  induction ps as [|[c|t] ps IH]; intros st.
  - reflexivity.
  - rewrite rebuild_lit_output, IH. reflexivity.
  - rewrite rebuild_hit_output, IH, replace_quoted_counter, Nat.add_1_r.
    reflexivity.
Qed.

(** Entries under other keys are left as they were. *)
Lemma rebuild_frame ps : forall st k,
  (forall i, i < length (hits quoted_group ps) ->
             k <> placeholder (placeholder_counter st + i)) ->
  quoted_phrases (rebuild_with replace_quoted ps st).1 !! k =
    quoted_phrases st !! k.
Proof.
  induction ps as [|[c|t] ps IH]; intros st k Hk.
  - reflexivity.
  - rewrite rebuild_lit_state. apply IH, Hk.
  - cbn [hits length] in Hk.
    rewrite rebuild_hit_state, IH, replace_quoted_table.
    + apply lookup_insert_ne. intros E. apply (Hk 0); [lia|].
      rewrite Nat.add_0_r. symmetry. exact E.
    + intros i Hi. rewrite replace_quoted_counter.
      replace (placeholder_counter st + 1 + i)
        with (placeholder_counter st + S i) by lia.
      apply Hk. lia.
Qed.

(** The [i]-th phrase is recorded under the [i]-th fresh placeholder. *)
Lemma rebuild_records ps : forall st i phrase,
  hits quoted_group ps !! i = Some phrase ->
  quoted_phrases (rebuild_with replace_quoted ps st).1
    !! placeholder (placeholder_counter st + i) = Some phrase.
Proof.
  induction ps as [|[c|t] ps IH]; intros st i phrase Hi.
  - discriminate.
  - rewrite rebuild_lit_state. apply IH, Hi.
  - rewrite rebuild_hit_state. destruct i as [|i].
    + cbn in Hi. injection Hi as <-.
      rewrite rebuild_frame, replace_quoted_table, Nat.add_0_r.
      * apply lookup_insert_eq.
      * intros j _ E. apply placeholder_inj in E.
        rewrite replace_quoted_counter in E. lia.
    + cbn in Hi.
      replace (placeholder_counter st + S i)
        with (placeholder_counter (replace_quoted st t).1 + i)
        by (rewrite replace_quoted_counter; lia).
      apply IH, Hi.
Qed.

(** Every entry is an old one or one of the recorded phrases. *)
Lemma rebuild_only ps : forall st k v,
  quoted_phrases (rebuild_with replace_quoted ps st).1 !! k = Some v ->
  quoted_phrases st !! k = Some v
  \/ exists i, k = placeholder (placeholder_counter st + i)
               /\ hits quoted_group ps !! i = Some v.
Proof.
  induction ps as [|[c|t] ps IH]; intros st k v Hkv.
  - left. exact Hkv.
  - rewrite rebuild_lit_state in Hkv. exact (IH st k v Hkv).
  - rewrite rebuild_hit_state in Hkv.
    destruct (IH _ k v Hkv) as [Hold | (i & -> & Hi)].
    + rewrite replace_quoted_table in Hold.
      destruct (decide (placeholder (placeholder_counter st) = k)) as [<-|Hne].
      * rewrite lookup_insert_eq in Hold. injection Hold as <-.
        right. exists 0. rewrite Nat.add_0_r. split; reflexivity.
      * rewrite lookup_insert_ne in Hold by exact Hne. left. exact Hold.
    + right. exists (S i). rewrite replace_quoted_counter.
      split; [f_equal; lia | exact Hi].
Qed.
End preprocess.

Lemma parse_query_state (algebra_parse : string -> result Expression)
  (self : BooleanSearchParser) (query : string) :
  (parse_query algebra_parse self query).1 = (preprocess_query new_parser query).1.
Proof.
  unfold parse_query. cbn [quoted_phrases placeholder_counter].
  change (mkParser ∅ 0) with new_parser.
  destruct (preprocess_query new_parser query) as [st processed].
  destruct (algebra_parse processed); reflexivity.
Qed.

(** ** Scanning for quoted phrases *)

Lemma scan_spell (m : matcher) (Hm : bounded m) (s : string) :
  forall k p, k <= String.length s -> spell (scan_go m k p s) = str_drop k s.
Proof.
  unfold spell. induction s as [|c s IH]; intros k p Hk.
  - destruct k; reflexivity.
  - destruct k as [|k].
    + cbn [scan_go str_drop].
      destruct (m p (String c s)) as [[|j]|] eqn:E; cbn [rebuild].
      * rewrite (IH 0 _ (Nat.le_0_l _)). destruct s; reflexivity.
      * apply Hm in E. cbn [String.length] in E.
        rewrite (IH j); [|lia]. cbn [str_take].
        rewrite app_cons_str, take_drop_str. reflexivity.
      * rewrite (IH 0 _ (Nat.le_0_l _)). destruct s; reflexivity.
    + cbn [scan_go str_drop]. apply IH. cbn [String.length] in Hk. lia.
Qed.

Lemma get_lt (n : nat) (s : string) (c : ascii) :
  str_at n s = Some c -> n < String.length s.
Proof.
  unfold str_at. revert n. induction s as [|x s IH]; intros n H; [discriminate|].
  destruct n as [|n]; cbn [String.length]; [lia|].
  cbn [String.get] in H. apply IH in H. lia.
Qed.

Lemma get_drop (n : nat) (s : string) (c : ascii) :
  str_at n s = Some c -> str_drop n s = String c (str_drop (S n) s).
Proof.
  unfold str_at. revert n. induction s as [|x s IH]; intros n H; [discriminate|].
  destruct n as [|n].
  - cbn in H. injection H as ->. destruct s; reflexivity.
  - cbn [String.get] in H. cbn [str_drop]. rewrite (IH n H). reflexivity.
Qed.

Lemma run_len_le (p : ascii -> bool) (s : string) : run_len p s <= String.length s.
Proof.
  induction s as [|c s IH]; [reflexivity|].
  cbn [run_len String.length]. destruct (p c); lia.
Qed.

Lemma run_len_take (p : ascii -> bool) (s : string) :
  str_forall p (str_take (run_len p s) s) = true.
Proof.
  induction s as [|c s IH]; [reflexivity|].
  cbn [run_len]. destruct (p c) eqn:Hc; [|reflexivity].
  cbn [str_take str_forall]. rewrite Hc, IH. reflexivity.
Qed.

Lemma run_len_stop (p : ascii -> bool) (s : string) (c : ascii) :
  str_at (run_len p s) s = Some c -> p c = false.
Proof.
  unfold str_at. induction s as [|x s IH]; [discriminate|].
  cbn [run_len]. destruct (p x) eqn:Hx.
  - cbn [String.get]. exact IH.
  - cbn. intros H. injection H as <-. exact Hx.
Qed.

Lemma take_app_length (a b : string) : str_take (String.length a) (a +:+ b) = a.
Proof.
  induction a as [|c a IH]; [destruct b; reflexivity|].
  rewrite app_cons_str. cbn [String.length str_take]. rewrite IH. reflexivity.
Qed.

Lemma quoted_group_qt (phrase : string) : quoted_group (qt phrase) = phrase.
Proof.
  unfold quoted_group, qt. cbn [String.length str_drop].
  rewrite length_app_str. cbn [String.length].
  replace (S (String.length phrase + 1) - 2) with (String.length phrase) by lia.
  destruct phrase as [|c phrase]; [reflexivity|].
  apply take_app_length.
Qed.

Lemma take_qt (a rest : string) :
  str_take (String.length a + 2) (String dquote (a +:+ String dquote rest)) = qt a.
Proof.
  replace (String.length a + 2)
    with (S (String.length (a +:+ String dquote ""))).
  - cbn [str_take]. unfold qt. f_equal.
    change (String dquote rest) with (String dquote "" +:+ rest).
    rewrite <- app_assoc_str. apply take_app_length.
  - rewrite length_app_str. cbn [String.length]. lia.
Qed.

Lemma re_quoted_span (prev : option ascii) (s : string) (n : nat) :
  re_quoted prev s = Some n ->
  exists phrase : string,
    str_take n s = qt phrase /\ n = String.length phrase + 2
    /\ n <= String.length s
    /\ phrase <> "" /\ str_forall is_notquote phrase = true.
Proof.
  unfold re_quoted. destruct s as [|q body]; [discriminate|].
  destruct (Ascii.eqb q dquote) eqn:Hq; [|discriminate].
  apply Ascii.eqb_eq in Hq. subst q.
  pose proof (run_len_le is_notquote body) as Hle.
  pose proof (run_len_take is_notquote body) as Hall.
  pose proof (run_len_stop is_notquote body) as Hstop.
  destruct (run_len is_notquote body) as [|r] eqn:Hr; [discriminate|].
  destruct (str_at (S r) body) as [x|] eqn:Hx; [|discriminate].
  intros H. injection H as <-.
  pose proof (get_lt _ _ _ Hx) as Hlt.
  pose proof (Hstop x eq_refl) as Hxq. unfold is_notquote in Hxq.
  apply negb_false_iff, Ascii.eqb_eq in Hxq. subst x.
  pose proof (length_take_str (S r) body Hle) as Hla.
  assert (Hbody : body =
            str_take (S r) body +:+ String dquote (str_drop (S (S r)) body)).
  { rewrite <- (get_drop _ _ _ Hx). symmetry. apply take_drop_str. }
  exists (str_take (S r) body). rewrite Hla. repeat split.
  - remember (str_take (S r) body) as a eqn:Ea.
    remember (str_drop (S (S r)) body) as rest eqn:Erest.
    replace (S (r + 2)) with (String.length a + 2) by lia.
    rewrite Hbody. apply take_qt.
  - cbn [String.length]. lia.
  - intros E. rewrite E in Hla. discriminate Hla.
  - exact Hall.
Qed.

Lemma re_quoted_bounded : bounded re_quoted.
Proof.
  intros prev s n H. destruct (re_quoted_span prev s n H) as (_ & _ & _ & Hn & _).
  exact Hn.
Qed.

Lemma scan_quoted_spans (s : string) :
  forall k p, Forall quoted_span (scan_go re_quoted k p s).
Proof.
  induction s as [|c s IH]; intros k p; [constructor|].
  destruct k as [|k]; cbn [scan_go]; [|apply IH].
  destruct (re_quoted p (String c s)) as [[|j]|] eqn:E;
    try (constructor; [exact I | apply IH]).
  constructor; [|apply IH].
  destruct (re_quoted_span _ _ _ E) as (phrase & Ht & _ & _ & Hne & Hall).
  exists phrase. rewrite Ht. repeat split; try assumption.
  apply quoted_group_qt.
Qed.

(** C7. Whatever the parser object held before, [parse_query] starts from
    an empty phrase table and a zero counter. The query is cut into the
    characters outside quoted spans and the quoted spans; the spans are
    replaced in order by [QUOTED_PHRASE_0], [QUOTED_PHRASE_1], ... and the
    result is what the grammar parses; afterwards the counter is the number
    of phrases, the [i]-th placeholder maps to the [i]-th phrase, the table
    holds nothing else, and the state is the one a fresh parser would reach,
    so nothing of an earlier call remains. *)
Theorem parse_query_resets_phrase_table
  (algebra_parse : string -> result Expression)
  (self : BooleanSearchParser) (query : string) :
  let pieces := re_finditer re_quoted query in
  let phrases := re_findall re_quoted quoted_group query in
  let self' := (parse_query algebra_parse self query).1 in
  spell pieces = query
  /\ Forall quoted_span pieces
  /\ (parse_query algebra_parse self query).2 =
       match algebra_parse (substitute 0 pieces) with
       | Return e => Return e
       | Raise e => Raise ("Invalid Boolean query: " +:+ e)
       end
  /\ placeholder_counter self' = length phrases
  /\ (forall (i : nat) (phrase : string),
        phrases !! i = Some phrase ->
        quoted_phrases self' !! placeholder i = Some phrase)
  /\ (forall k v : string,
        quoted_phrases self' !! k = Some v ->
        exists i : nat, k = placeholder i /\ phrases !! i = Some v)
  /\ self' = (parse_query algebra_parse new_parser query).1
  /\ (forall previous : string,
        (parse_query algebra_parse
           (parse_query algebra_parse self previous).1 query).1 = self').
Proof.
  cbv zeta. rewrite !parse_query_state.
  unfold re_findall, preprocess_query, re_sub_with.
  set (pieces := re_finditer re_quoted query).
  repeat split.
  - unfold pieces, re_finditer.
    rewrite (scan_spell re_quoted re_quoted_bounded query 0 None (Nat.le_0_l _)).
    destruct query; reflexivity.
  - apply scan_quoted_spans.
  - unfold parse_query. cbn [quoted_phrases placeholder_counter].
    change (mkParser ∅ 0) with new_parser.
    unfold preprocess_query, re_sub_with. fold pieces.
    pose proof (rebuild_output pieces new_parser) as Hout.
    destruct (rebuild_with replace_quoted pieces new_parser) as [st out].
    cbn [snd] in *. subst out. cbn [placeholder_counter new_parser].
    destruct (algebra_parse (substitute 0 pieces)); reflexivity.
  - rewrite rebuild_counter. reflexivity.
  - intros i phrase Hi. exact (rebuild_records pieces new_parser i phrase Hi).
  - intros k v Hkv.
    destruct (rebuild_only pieces new_parser k v Hkv) as [Hold | (i & -> & Hi)].
    + cbn in Hold. rewrite lookup_empty in Hold. discriminate.
    + exists i. split; [reflexivity | exact Hi].
  - intros previous. rewrite parse_query_state. reflexivity.
Qed.

Example preprocess_two_phrases :
  let '(bsp, processed) :=
    preprocess_query new_parser
      (qt "Machine Learning" +:+ " AND (" +:+ qt "data science" +:+ " OR R)") in
  processed = "QUOTED_PHRASE_0 AND (QUOTED_PHRASE_1 OR R)"
  /\ placeholder_counter bsp = 2
  /\ quoted_phrases bsp !! "QUOTED_PHRASE_0" = Some "Machine Learning"
  /\ quoted_phrases bsp !! "QUOTED_PHRASE_1" = Some "data science".
Proof. vm_compute. repeat split; reflexivity. Qed.

(** * Further properties *)

(** ** Substrings *)

Lemma startswith_split (p s : string) :
  str_startswith p s = true -> exists post, s = p +:+ post.
Proof.
  revert s. induction p as [|a p IH]; intros s H.
  - exists s. reflexivity.
  - destruct s as [|b s]; [discriminate H|].
    rewrite startswith_cons in H.
    destruct (ascii_dec a b) as [->|_]; [|discriminate H].
    destruct (IH s H) as [post ->]. exists post. reflexivity.
Qed.

Lemma str_in_split (needle hay : string) :
  str_in needle hay = true ->
  exists pre post, hay = pre +:+ needle +:+ post.
Proof.
  induction hay as [|c hay IH]; cbn [str_in]; intros H.
  - rewrite orb_false_r in H. destruct (startswith_split _ _ H) as [post E].
    exists "", post. exact E.
  - apply orb_true_iff in H as [H|H].
    + destruct (startswith_split _ _ H) as [post E]. exists "", post. exact E.
    + destruct (IH H) as (pre & post & ->). exists (String c pre), post.
      reflexivity.
Qed.

Lemma str_in_extend (needle a text b : string) :
  str_in needle text = true -> str_in needle (a +:+ text +:+ b) = true.
Proof.
  intros H. destruct (str_in_split _ _ H) as (pre & post & ->).
  replace (a +:+ (pre +:+ needle +:+ post) +:+ b)
    with ((a +:+ pre) +:+ needle +:+ (post +:+ b))
    by (rewrite !app_assoc_str; reflexivity).
  apply str_in_app.
Qed.

(** ** Evaluator *)

Lemma search_word_in (term : string) (s : string) :
  forall prev, search_go (re_word term) prev s = true -> str_in term s = true.
Proof.
  induction s as [|c s IH]; intros prev; cbn [search_go].
  - destruct (re_word term prev "") eqn:E; [|discriminate].
    intros _. unfold re_word in E.
    destruct (str_startswith term "") eqn:Hs.
    + apply str_in_here, Hs.
    + rewrite andb_false_r in E. discriminate E.
  - destruct (re_word term prev (String c s)) eqn:E.
    + intros _. unfold re_word in E.
      destruct (str_startswith term (String c s)) eqn:Hs.
      * apply str_in_here, Hs.
      * rewrite andb_false_r in E. discriminate E.
    + intros H. cbn [str_in]. rewrite (IH _ H). apply orb_true_r.
Qed.

Lemma evaluate_Symbol_substring (obj text : string)
  (qp : option (gmap string string)) :
  evaluate_expression (Symbol obj) text qp = str_in (str_lower obj) text.
Proof.
  rewrite evaluate_Symbol.
  destruct (re_search (re_word (str_lower obj)) text) eqn:E; [|reflexivity].
  symmetry. exact (search_word_in _ _ _ E).
Qed.

Section Expression_induction.
Variable P : Expression -> Prop.
Hypothesis HSymbol : forall obj, P (Symbol obj).
Hypothesis HAND : forall args, Forall P args -> P (AND args).
Hypothesis HOR : forall args, Forall P args -> P (OR args).
Hypothesis HNOT : forall arg, P arg -> P (NOT arg).

Lemma Expression_nested_ind : forall e, P e.
Proof.
  fix IH 1.
  intros [obj|args|args|arg];
    [apply HSymbol | apply HAND | apply HOR | apply HNOT, IH].
  - induction args as [|a args IHargs]; constructor; [apply IH | exact IHargs].
  - induction args as [|a args IHargs]; constructor; [apply IH | exact IHargs].
Qed.
End Expression_induction.

Lemma forallb_Forall_ext {A : Type} (f g : A -> bool) (l : list A) :
  Forall (fun x => f x = g x) l -> forallb f l = forallb g l.
Proof.
  induction 1 as [|x l Hx _ IH]; [reflexivity|].
  cbn [forallb]. rewrite Hx, IH. reflexivity.
Qed.

Lemma existsb_Forall_ext {A : Type} (f g : A -> bool) (l : list A) :
  Forall (fun x => f x = g x) l -> existsb f l = existsb g l.
Proof.
  induction 1 as [|x l Hx _ IH]; [reflexivity|].
  cbn [existsb]. rewrite Hx, IH. reflexivity.
Qed.

Lemma forallb_Forall_impl {A : Type} (f g : A -> bool) (l : list A) :
  Forall (fun x => f x = true -> g x = true) l ->
  forallb f l = true -> forallb g l = true.
Proof.
  induction 1 as [|x l Hx _ IH]; [reflexivity|].
  cbn [forallb]. intros [Hf Hl]%andb_true_iff.
  rewrite (Hx Hf), (IH Hl). reflexivity.
Qed.

Lemma existsb_Forall_impl {A : Type} (f g : A -> bool) (l : list A) :
  Forall (fun x => f x = true -> g x = true) l ->
  existsb f l = true -> existsb g l = true.
Proof.
  induction 1 as [|x l Hx _ IH]; [discriminate|].
  cbn [existsb]. intros [Hf|Hl]%orb_true_iff.
  - rewrite (Hx Hf). reflexivity.
  - rewrite (IH Hl). apply orb_true_r.
Qed.

(** X1. A term matches a text exactly when its lowercased form is a
    substring of the text: a word-boundary match is always a substring
    match too, so the word-boundary tier never changes the verdict. *)
Theorem term_matches_iff_substring (obj text : string)
  (qp : option (gmap string string)) :
  (re_search (re_word (str_lower obj)) text = true ->
   str_in (str_lower obj) text = true)
  /\ evaluate_expression (Symbol obj) text qp = str_in (str_lower obj) text.
Proof.
  split; [apply search_word_in | apply evaluate_Symbol_substring].
Qed.

(** X2. The verdict of the evaluator does not depend on the phrase table:
    any two tables, or no table at all, give the same result for every
    expression and text. *)
Theorem verdict_ignores_phrase_table (expr : Expression) (text : string)
  (qp1 qp2 : option (gmap string string)) :
  evaluate_expression expr text qp1 = evaluate_expression expr text qp2.
Proof.
  revert qp1 qp2.
  induction expr as [obj|args IH|args IH|arg _] using Expression_nested_ind;
    intros qp1 qp2.
  - rewrite !evaluate_Symbol_substring. reflexivity.
  - cbn [evaluate_expression]. apply forallb_Forall_ext.
    eapply Forall_impl; [exact IH|]. intros a Ha. apply Ha.
  - cbn [evaluate_expression]. apply existsb_Forall_ext.
    eapply Forall_impl; [exact IH|]. intros a Ha. apply Ha.
  - reflexivity.
Qed.

(** X3. Matching is monotone in the text: an expression that holds on a
    text holds on every text that contains it. *)
Theorem verdict_monotone_in_text (expr : Expression) (text before after : string)
  (qp : option (gmap string string)) :
  evaluate_expression expr text qp = true ->
  evaluate_expression expr (before +:+ text +:+ after) qp = true.
Proof.
  revert qp.
  induction expr as [obj|args IH|args IH|arg _] using Expression_nested_ind;
    intros qp.
  - rewrite !evaluate_Symbol_substring. apply str_in_extend.
  - cbn [evaluate_expression]. apply forallb_Forall_impl.
    eapply Forall_impl; [exact IH|]. intros a Ha. apply Ha.
  - cbn [evaluate_expression]. apply existsb_Forall_impl.
    eapply Forall_impl; [exact IH|]. intros a Ha. apply Ha.
  - discriminate.
Qed.

Lemma verdict_monotone_in_text_witness :
  evaluate_expression (AND [Symbol "Python"; OR [Symbol "Django"; Symbol "Flask"]])
    ("senior " +:+ "python django" +:+ " developer") None = true.
Proof.
  apply (verdict_monotone_in_text
           (AND [Symbol "Python"; OR [Symbol "Django"; Symbol "Flask"]])
           "python django" "senior " " developer" None).
  vm_compute. reflexivity.
Defined.

Lemma chr_lower_idem (c : ascii) : chr_lower (chr_lower c) = chr_lower c.
Proof. destruct c as [[] [] [] [] [] [] [] []]; vm_compute; reflexivity. Qed.

Lemma str_lower_idem (s : string) : str_lower (str_lower s) = str_lower s.
Proof.
  induction s as [|c s IH]; [reflexivity|].
  cbn [str_lower]. rewrite chr_lower_idem, IH. reflexivity.
Qed.

(** X4. Lowercasing a term beforehand, as the single-term path of [main]
    does, changes nothing: a term and its lowercased form evaluate alike,
    and so do two terms that differ only in case. *)
Theorem term_case_is_irrelevant (obj obj' text : string)
  (qp : option (gmap string string)) :
  evaluate_expression (Symbol (str_lower obj)) text qp =
    evaluate_expression (Symbol obj) text qp
  /\ (str_lower obj = str_lower obj' ->
      evaluate_expression (Symbol obj) text qp =
        evaluate_expression (Symbol obj') text qp).
Proof.
  split.
  - rewrite !evaluate_Symbol_substring, str_lower_idem. reflexivity.
  - intros E. rewrite !evaluate_Symbol_substring, E. reflexivity.
Qed.

(** ** Shape of the normalized text *)

Lemma str_forall_impl (p q : ascii -> bool) (s : string) :
  (forall c, p c = true -> q c = true) ->
  str_forall p s = true -> str_forall q s = true.
Proof.
  intros Hpq. induction s as [|c s IH]; [reflexivity|].
  cbn [str_forall]. intros [Hc Hs]%andb_true_iff.
  rewrite (Hpq c Hc), (IH Hs). reflexivity.
Qed.

Lemma str_forall_and (p q : ascii -> bool) (s : string) :
  str_forall p s = true -> str_forall q s = true ->
  str_forall (fun c => p c && q c) s = true.
Proof.
  induction s as [|c s IH]; [reflexivity|].
  cbn [str_forall]. intros [Hp Hps]%andb_true_iff [Hq Hqs]%andb_true_iff.
  rewrite Hp, Hq, (IH Hps Hqs). reflexivity.
Qed.

Lemma str_forall_remove (p : ascii -> bool) (x : ascii) (s : string) :
  str_forall p s = true -> str_forall p (str_remove x s) = true.
Proof.
  induction s as [|c s IH]; [reflexivity|].
  cbn [str_forall str_remove]. intros [Hc Hs]%andb_true_iff.
  destruct (Ascii.eqb c x); [exact (IH Hs)|].
  cbn [str_forall]. rewrite Hc, (IH Hs). reflexivity.
Qed.

Lemma str_lower_lowered (s : string) : str_forall is_lowered (str_lower s) = true.
Proof.
  induction s as [|c s IH]; [reflexivity|].
  cbn [str_lower str_forall]. unfold is_lowered at 1.
  rewrite chr_lower_idem, Ascii.eqb_refl, IH. reflexivity.
Qed.

(** Substituting a constant keeps a property that the text and the constant
    both have. *)
Lemma re_sub_const_forall (p : ascii -> bool) (m : matcher) (r s : string) :
  str_forall p r = true -> str_forall p s = true ->
  str_forall p (re_sub m (fun _ => r) s) = true.
Proof.
  intros Hr. unfold re_sub, re_finditer. generalize 0 (@None ascii).
  induction s as [|c s IH]; intros skip prev Hs; [reflexivity|].
  cbn [str_forall] in Hs. apply andb_true_iff in Hs as [Hc Hs].
  cbn [scan_go]. destruct skip as [|k]; [|exact (IH _ _ Hs)].
  destruct (m prev (String c s)) as [[|k]|]; cbn [rebuild].
  - cbn [str_forall]. rewrite Hc, (IH _ _ Hs). reflexivity.
  - rewrite str_forall_app, Hr, (IH _ _ Hs). reflexivity.
  - cbn [str_forall]. rewrite Hc, (IH _ _ Hs). reflexivity.
Qed.

Lemma quoted_group_forall (p : ascii -> bool) (t : string) :
  str_forall p t = true -> str_forall p (quoted_group t) = true.
Proof.
  intros H. unfold quoted_group. apply str_forall_take, str_forall_drop, H.
Qed.

Lemma re_findall_forall (p : ascii -> bool) (m : matcher) (s : string) :
  str_forall p s = true ->
  Forall (fun t => str_forall p t = true) (re_findall m quoted_group s).
Proof.
  unfold re_findall, re_finditer. generalize 0 (@None ascii).
  induction s as [|c s IH]; intros skip prev Hs; [constructor|].
  pose proof Hs as Hcs. cbn [str_forall] in Hs.
  apply andb_true_iff in Hs as [Hc Hs].
  cbn [scan_go]. destruct skip as [|k]; [|exact (IH _ _ Hs)].
  destruct (m prev (String c s)) as [[|k]|]; cbn [hits];
    try exact (IH _ _ Hs).
  constructor; [|exact (IH _ _ Hs)].
  apply quoted_group_forall, str_forall_take, Hcs.
Qed.

Lemma append_copies_forall (p : ascii -> bool) (copies : list string) :
  p space = true ->
  Forall (fun t => str_forall p t = true) copies ->
  forall text, str_forall p text = true ->
  str_forall p
    (fold_left (fun text phrase => text +:+ " " +:+ str_remove space phrase)
       copies text) = true.
Proof.
  intros Hsp. induction 1 as [|t copies Ht _ IH]; intros text Htext.
  - exact Htext.
  - cbn [fold_left]. apply IH.
    rewrite str_forall_app, Htext.
    change (" " +:+ str_remove space t) with (String space (str_remove space t)).
    cbn [str_forall]. rewrite Hsp, (str_forall_remove p space t Ht). reflexivity.
Qed.

Lemma symbol_strip_forall (p : ascii -> bool) (s : string) :
  p space = true -> str_forall p s = true ->
  str_forall (fun c => p c && negb (is_symbol c))
    (re_sub re_symbol (fun _ => " ") s) = true.
Proof.
  intros Hsp. unfold re_sub, re_finditer. generalize (@None ascii).
  induction s as [|c s IH]; intros prev Hs; [reflexivity|].
  cbn [str_forall] in Hs. apply andb_true_iff in Hs as [Hc Hs].
  cbn [scan_go]. unfold re_symbol at 1. fold (is_symbol c).
  destruct (is_symbol c) eqn:Hsym; cbn [rebuild].
  - change (" " +:+ ?t) with (String space t). cbn [str_forall].
    rewrite Hsp, (IH _ Hs). reflexivity.
  - cbn [str_forall]. rewrite Hc, Hsym, (IH _ Hs). reflexivity.
Qed.

Lemma is_lowered_space : is_lowered space = true.
Proof. reflexivity. Qed.

(** The cleaned text is in lower case and free of symbols. *)
Lemma cleanup_forall (text : string) :
  str_forall (fun c => is_lowered c && negb (is_symbol c)) (cleanup text) = true.
Proof.
  unfold cleanup.
  apply symbol_strip_forall; [exact is_lowered_space|].
  apply str_forall_remove.
  set (t := re_sub re_url _ _).
  assert (Ht : str_forall is_lowered t = true).
  { unfold t. repeat (apply re_sub_const_forall; [reflexivity|]).
    apply str_lower_lowered. }
  apply append_copies_forall;
    [exact is_lowered_space | apply re_findall_forall, Ht | exact Ht].
Qed.

Lemma split_go_forall (p : ascii -> bool) (s : string) :
  str_forall p s = true ->
  str_forall p (split_go s).1 = true
  /\ Forall (fun w => str_forall p w = true) (split_go s).2.
Proof.
  induction s as [|c s IH]; [split; [reflexivity | constructor]|].
  cbn [str_forall split_go]. intros [Hc Hs]%andb_true_iff.
  destruct (IH Hs) as [Hw Hws]. destruct (split_go s) as [w ws].
  cbn [fst snd] in *. destruct (is_space c); cbn [fst snd].
  - split; [reflexivity|]. destruct w; [exact Hws | constructor; assumption].
  - split; [|exact Hws]. cbn [str_forall]. rewrite Hc, Hw. reflexivity.
Qed.

Lemma str_split_forall (p : ascii -> bool) (s : string) :
  str_forall p s = true -> Forall (fun w => str_forall p w = true) (str_split s).
Proof.
  intros H. destruct (split_go_forall p s H) as [Hw Hws]. unfold str_split.
  destruct (split_go s) as [w ws]. cbn [fst snd] in *.
  destruct w; [exact Hws | constructor; assumption].
Qed.

Lemma wordlow_of_parts (c : ascii) :
  (is_lowered c && negb (is_symbol c)) && is_nonspace c = true ->
  is_word c && is_lowered c = true.
Proof.
  unfold is_symbol, is_nonspace.
  destruct (is_lowered c), (is_word c), (is_space c); cbn; congruence.
Qed.

(** Every token of the cleaned text is made of lower-case word characters. *)
Lemma base_tokens_wordlow (text : string) :
  Forall (fun w => str_forall (fun c => is_word c && is_lowered c) w = true)
    (base_tokens text).
Proof.
  unfold base_tokens.
  pose proof (str_split_forall _ _ (cleanup_forall text)) as Hq.
  pose proof (str_split_tokens (cleanup text)) as Htok.
  induction Hq as [|w ws Hw _ IH]; [constructor|].
  apply Forall_cons in Htok as [[_ Hns] Htok].
  constructor; [|exact (IH Htok)].
  apply (str_forall_impl _ _ _ wordlow_of_parts), str_forall_and; assumption.
Qed.

Lemma bigrams_forall (p : ascii -> bool) (words : list string) :
  Forall (fun w => str_forall p w = true) words ->
  Forall (fun w => str_forall p w = true) (bigrams words).
Proof.
  induction 1 as [|a rest Ha Hrest IH]; [constructor|].
  destruct Hrest as [|b r Hb Hr]; [constructor|].
  cbn [bigrams]. constructor; [|exact IH].
  rewrite str_forall_app, Ha, Hb. reflexivity.
Qed.

Lemma halves_forall (p : ascii -> bool) (words : list string) :
  Forall (fun w => str_forall p w = true) words ->
  Forall (fun w => str_forall p w = true) (flat_map half_fragments words).
Proof.
  induction 1 as [|tok words Htok _ IH]; [constructor|].
  cbn [flat_map]. apply Forall_app. split; [|exact IH].
  unfold half_fragments. destruct (8 <? String.length tok); [|constructor].
  repeat constructor; [apply str_forall_take | apply str_forall_drop]; exact Htok.
Qed.

Lemma tail_text_clean (ws : list string) :
  Forall (fun w => str_forall (fun c => is_word c && is_lowered c) w = true) ws ->
  str_forall is_clean (tail_text ws) = true.
Proof.
  induction 1 as [|w ws Hw _ IH]; [reflexivity|].
  rewrite tail_text_cons. cbn [str_forall].
  rewrite str_forall_app, IH, andb_true_r.
  apply (str_forall_impl (fun c => is_word c && is_lowered c)); [|exact Hw].
  intros c Hc. unfold is_clean. rewrite Hc. apply orb_true_r.
Qed.

Lemma normalized_tokens_wordlow (text : string) :
  Forall (fun w => str_forall (fun c => is_word c && is_lowered c) w = true)
    (base_tokens text ++ bigrams (base_tokens text)
     ++ flat_map half_fragments (base_tokens text)).
Proof.
  pose proof (base_tokens_wordlow text) as Hb.
  repeat (apply Forall_app; split);
    [exact Hb | apply bigrams_forall, Hb | apply halves_forall, Hb].
Qed.

Lemma normalize_clean (text : string) : str_forall is_clean (normalize text) = true.
Proof.
  rewrite normalize_join.
  pose proof (normalized_tokens_wordlow text) as H.
  destruct H as [|w ws Hw Hws]; [reflexivity|].
  rewrite str_join_tail, str_forall_app, (tail_text_clean ws Hws), andb_true_r.
  apply (str_forall_impl (fun c => is_word c && is_lowered c)); [|exact Hw].
  intros c Hc. unfold is_clean. rewrite Hc. apply orb_true_r.
Qed.

(** X5. The normalized text is whitespace-canonical: it is its own tokens
    joined by single spaces, so collapsing and trimming whitespace once more
    leaves it unchanged. *)
Theorem normalize_whitespace_canonical (text : string) :
  str_join " " (str_split (normalize text)) = normalize text
  /\ str_strip (re_sub re_spaces (fun _ => " ") (normalize text)) = normalize text.
Proof.
  assert (H : str_join " " (str_split (normalize text)) = normalize text).
  { rewrite normalize_tokens. symmetry. apply normalize_join. }
  split; [exact H|].
  rewrite re_sub_spaces, strip_squeeze_join. exact H.
Qed.

(** X6. Every character of the normalized text is a space or a word
    character in lower case: no quotation mark, punctuation, other
    whitespace or upper-case letter survives normalization. *)
Theorem normalize_only_lowercase_words_and_spaces (text : string) :
  str_forall is_clean (normalize text) = true
  /\ str_exists is_symbol (normalize text) = false
  /\ str_lower (normalize text) = normalize text.
Proof.
  pose proof (normalize_clean text) as H. split; [exact H|].
  induction (normalize text) as [|c s IH]; [split; reflexivity|].
  cbn [str_forall] in H. apply andb_true_iff in H as [Hc Hs].
  destruct (IH Hs) as [IH1 IH2]. cbn [str_exists str_lower].
  rewrite IH1, IH2. unfold is_clean, is_lowered in Hc.
  apply orb_true_iff in Hc as [Hc|Hc].
  - apply Ascii.eqb_eq in Hc. subst c. split; reflexivity.
  - apply andb_true_iff in Hc as [Hw Hl]. apply Ascii.eqb_eq in Hl.
    unfold is_symbol. rewrite Hw, Hl. split; reflexivity.
Qed.

(** ** Size of the normalized text *)

Lemma length_bigrams (words : list string) :
  length (bigrams words) = length words - 1.
Proof.
  induction words as [|a rest IH]; [reflexivity|].
  destruct rest as [|b r]; [reflexivity|].
  change (bigrams (a :: b :: r)) with ((a +:+ b) :: bigrams (b :: r)).
  cbn [length] in *. lia.
Qed.

Lemma length_halves (words : list string) :
  length (flat_map half_fragments words) = 2 * length (long_tokens words).
Proof.
  unfold long_tokens. induction words as [|tok words IH]; [reflexivity|].
  cbn [flat_map List.filter]. rewrite length_app, IH.
  unfold half_fragments. destruct (8 <? String.length tok); cbn [length]; lia.
Qed.

Lemma length_long_tokens (words : list string) :
  length (long_tokens words) <= length words.
Proof.
  unfold long_tokens. induction words as [|tok words IH]; [reflexivity|].
  cbn [List.filter]. destruct (8 <? String.length tok); cbn [length]; lia.
Qed.

(** X7. With [n] tokens in the cleaned text, the normalized text has [n]
    tokens, [n - 1] bigrams and two halves for each token longer than 8
    characters, and so fewer than [4 * n] tokens (none when [n] is 0). *)
Theorem normalize_token_count (text : string) :
  length (str_split (normalize text)) =
    length (base_tokens text) + (length (base_tokens text) - 1)
    + 2 * length (long_tokens (base_tokens text))
  /\ length (str_split (normalize text)) <= 4 * length (base_tokens text).
Proof.
  rewrite normalize_tokens, !length_app, length_bigrams, length_halves.
  pose proof (length_long_tokens (base_tokens text)). lia.
Qed.

(** ** Normalizer and evaluator together *)

Lemma in_tail_text (w : string) (ws : list string) :
  In w ws -> exists pre post, tail_text ws = pre +:+ w +:+ post.
Proof.
  induction ws as [|x ws IH]; [intros []|].
  intros [->|Hin].
  - exists " ", (tail_text ws). reflexivity.
  - destruct (IH Hin) as (pre & post & E).
    exists (" " +:+ x +:+ pre), post. cbn [tail_text]. rewrite E.
    rewrite !app_assoc_str. reflexivity.
Qed.

Lemma in_join_str_in (w : string) (ws : list string) :
  In w ws -> str_in w (str_join " " ws) = true.
Proof.
  destruct ws as [|x ws]; [intros []|].
  rewrite str_join_tail. intros [->|Hin].
  - apply (str_in_app "" w (tail_text ws)).
  - destruct (in_tail_text w ws Hin) as (pre & post & ->).
    rewrite <- app_assoc_str. apply str_in_app.
Qed.

Lemma token_in_normalized (tok text : string) :
  In tok (str_split (normalize text)) -> str_in tok (normalize text) = true.
Proof.
  intros Hin.
  assert (E : str_join " " (str_split (normalize text)) = normalize text).
  { rewrite normalize_tokens. symmetry. apply normalize_join. }
  rewrite <- E. apply in_join_str_in, Hin.
Qed.

(** X8. A term whose lowercased form is one of the tokens of the normalized
    text matches it: every word, bigram and half that the normalizer emits
    can be found by querying it, in any letter case. *)
Theorem token_of_normalized_text_matches (obj text : string)
  (qp : option (gmap string string)) :
  In (str_lower obj) (str_split (normalize text)) ->
  evaluate_expression (Symbol obj) (normalize text) qp = true.
Proof.
  intros Hin. rewrite evaluate_Symbol_substring.
  apply token_in_normalized, Hin.
Qed.

Lemma token_of_normalized_text_matches_witness :
  evaluate_expression (Symbol "NALIZATION")
    (normalize "Internationalization (i18n)") None = true.
Proof.
  apply (token_of_normalized_text_matches
           "NALIZATION" "Internationalization (i18n)" None).
  vm_compute. tauto.
Defined.

Lemma in_bigrams (pre : list string) (a b : string) (post : list string) :
  In (a +:+ b) (bigrams (pre ++ a :: b :: post)).
Proof.
  induction pre as [|x pre IH]; [left; reflexivity|].
  destruct pre as [|y pre]; right; exact IH.
Qed.

(** X9. Two words that are adjacent in the cleaned text are found by the
    query that writes them as one word, in any letter case: the bigram the
    normalizer appends makes the merged spelling match. *)
Theorem merged_adjacent_words_match (text obj a b : string)
  (pre post : list string) (qp : option (gmap string string)) :
  base_tokens text = pre ++ a :: b :: post ->
  str_lower obj = a +:+ b ->
  evaluate_expression (Symbol obj) (normalize text) qp = true.
Proof.
  intros Hbase Hobj. rewrite evaluate_Symbol_substring, Hobj.
  apply token_in_normalized. rewrite normalize_tokens, Hbase.
  apply in_or_app. right. apply in_or_app. left. apply in_bigrams.
Qed.

Lemma merged_adjacent_words_match_witness :
  evaluate_expression (Symbol "MachineLearning")
    (normalize "Applied machine learning, NLP") None = true.
Proof.
  apply (merged_adjacent_words_match
           "Applied machine learning, NLP" "MachineLearning"
           "machine" "learning" ["applied"] ["nlp"] None);
    vm_compute; reflexivity.
Defined.

Lemma is_symbol_lower (c : ascii) : is_symbol (chr_lower c) = is_symbol c.
Proof. destruct c as [[] [] [] [] [] [] [] []]; vm_compute; reflexivity. Qed.

Lemma str_exists_lower (s : string) :
  str_exists is_symbol (str_lower s) = str_exists is_symbol s.
Proof.
  induction s as [|c s IH]; [reflexivity|].
  cbn [str_lower str_exists]. rewrite is_symbol_lower, IH. reflexivity.
Qed.

Lemma str_exists_app (p : ascii -> bool) (a b : string) :
  str_exists p (a +:+ b) = str_exists p a || str_exists p b.
Proof.
  induction a as [|c a IH]; [reflexivity|].
  rewrite app_cons_str. cbn [str_exists]. rewrite IH, orb_assoc. reflexivity.
Qed.

Lemma normalize_no_symbol (text : string) :
  str_exists is_symbol (normalize text) = false.
Proof.
  pose proof (normalize_clean text) as H.
  induction (normalize text) as [|c s IH]; [reflexivity|].
  cbn [str_forall] in H. apply andb_true_iff in H as [Hc Hs].
  cbn [str_exists]. rewrite (IH Hs), orb_false_r.
  unfold is_clean in Hc. apply orb_true_iff in Hc as [Hc|Hc].
  - apply Ascii.eqb_eq in Hc. subst c. reflexivity.
  - apply andb_true_iff in Hc as [Hw _]. unfold is_symbol. rewrite Hw. reflexivity.
Qed.

(** X10. A term that contains a character which is neither a word character
    nor whitespace (as in [C++], [C#] or [node.js]) matches no normalized
    text: the normalizer strips such characters from documents and the
    evaluator does not strip them from the term. *)
Theorem term_with_symbol_never_matches (obj text : string)
  (qp : option (gmap string string)) :
  str_exists is_symbol obj = true ->
  evaluate_expression (Symbol obj) (normalize text) qp = false.
Proof.
  intros Hsym. rewrite evaluate_Symbol_substring.
  destruct (str_in (str_lower obj) (normalize text)) eqn:Hin; [|reflexivity].
  destruct (str_in_split _ _ Hin) as (pre & post & E).
  pose proof (normalize_no_symbol text) as Hno.
  rewrite E, !str_exists_app, str_exists_lower, Hsym, orb_true_r in Hno.
  discriminate Hno.
Qed.

Lemma term_with_symbol_never_matches_witness :
  evaluate_expression (Symbol "C++") (normalize "Expert in C++ and Java") None
    = false.
Proof.
  apply (term_with_symbol_never_matches "C++" "Expert in C++ and Java" None).
  vm_compute. reflexivity.
Defined.

(** X11. A conjunction with a negated operand, such as
    [Python AND NOT Java], matches no text, and a negated operand of a
    disjunction contributes nothing to it. *)
Theorem negated_operand_effect (xs ys : list Expression) (arg : Expression)
  (text : string) (qp : option (gmap string string)) :
  evaluate_expression (AND (xs ++ NOT arg :: ys)) text qp = false
  /\ evaluate_expression (OR (xs ++ NOT arg :: ys)) text qp =
       evaluate_expression (OR (xs ++ ys)) text qp.
Proof.
  cbn [evaluate_expression]. rewrite forallb_app, !existsb_app.
  cbn [forallb existsb evaluate_expression].
  rewrite andb_false_r. split; reflexivity.
Qed.

(** ** Flattener *)

Lemma leaves_of_values (items : list (string * value)) :
  flat_map (fun '(_, v) => string_leaves v) items =
    flat_map string_leaves (map snd items).
Proof.
  induction items as [|[k v] items IH]; [reflexivity|].
  cbn [flat_map map snd]. rewrite IH. reflexivity.
Qed.

(** X12. The flattener sees only the sequence of string leaves: the keys of
    a map are not part of the text (a map flattens like the list of its
    values), and nesting makes no difference (a list inside a list flattens
    like its items spliced in place). *)
Theorem flatten_json_ignores_keys_and_nesting :
  (forall items : list (string * value),
     flatten_json (VDict items) = flatten_json (VList (map snd items)))
  /\ (forall xs ys zs : list value,
        flatten_json (VList (xs ++ VList ys :: zs)) =
          flatten_json (VList (xs ++ ys ++ zs))).
Proof.
  split.
  - intros items. unfold flatten_json. rewrite !recurse_appends_leaves.
    cbn [string_leaves]. rewrite leaves_of_values. reflexivity.
  - intros xs ys zs. unfold flatten_json. rewrite !recurse_appends_leaves.
    cbn [string_leaves]. rewrite !flat_map_app. reflexivity.
Qed.

(** X13. Every string leaf of a document is a substring of its flattened
    text. *)
Theorem string_leaf_in_flattened_text (obj : value) (s : string) :
  In s (string_leaves obj) -> str_in s (flatten_json obj) = true.
Proof.
  intros Hin. unfold flatten_json. rewrite recurse_appends_leaves.
  apply in_join_str_in, Hin.
Qed.

Lemma string_leaf_in_flattened_text_witness :
  str_in "Django"
    (flatten_json
       (VDict [("name", VStr "Ada"); ("age", VNum 36);
               ("skills", VList [VStr "Python"; VStr "Django"])])) = true.
Proof.
  apply (string_leaf_in_flattened_text
           (VDict [("name", VStr "Ada"); ("age", VNum 36);
                   ("skills", VList [VStr "Python"; VStr "Django"])])
           "Django").
  cbn. tauto.
Defined.

(** ** Query parser *)

Lemma no_quote_head (c : ascii) (s : string) :
  str_in (String dquote "") (String c s) = false ->
  Ascii.eqb c dquote = false /\ str_in (String dquote "") s = false.
Proof.
  cbn [str_in]. rewrite startswith_cons.
  intros [H1 H2]%orb_false_iff. split; [|exact H2].
  destruct (ascii_dec dquote c) as [<-|Hne].
  - destruct s; discriminate H1.
  - apply Ascii.eqb_neq. congruence.
Qed.

Lemma preprocess_no_quote (s : string) :
  str_in (String dquote "") s = false ->
  forall prev st,
  rebuild_with replace_quoted (scan_go re_quoted 0 prev s) st = (st, s).
Proof.
  induction s as [|c s IH]; intros Hq prev st; [reflexivity|].
  destruct (no_quote_head c s Hq) as [Hc Hs].
  cbn [scan_go re_quoted]. rewrite Hc. cbn [rebuild_with].
  rewrite (IH Hs). reflexivity.
Qed.

(** X14. A query without a quotation mark goes to the grammar exactly as it
    was typed, and leaves the parser with an empty phrase table and a zero
    counter. *)
Theorem parse_query_without_quotes
  (algebra_parse : string -> result Expression)
  (self : BooleanSearchParser) (query : string) :
  str_in (String dquote "") query = false ->
  preprocess_query self query = (self, query)
  /\ parse_query algebra_parse self query =
       (new_parser,
        match algebra_parse query with
        | Return e => Return e
        | Raise e => Raise ("Invalid Boolean query: " +:+ e)
        end).
Proof.
  intros Hq.
  assert (Hpre : forall st, preprocess_query st query = (st, query)).
  { intros st. apply preprocess_no_quote, Hq. }
  split; [apply Hpre|].
  unfold parse_query. cbn [quoted_phrases placeholder_counter].
  change (mkParser ∅ 0) with new_parser. rewrite Hpre.
  destruct (algebra_parse query); reflexivity.
Qed.

Lemma parse_query_without_quotes_witness :
  preprocess_query new_parser "Python AND (Django OR Flask)"
    = (new_parser, "Python AND (Django OR Flask)")
  /\ parse_query (fun s => Raise s) new_parser "Python AND (Django OR Flask)" =
       (new_parser,
        match Raise "Python AND (Django OR Flask)" with
        | Return e => Return e
        | Raise e => Raise ("Invalid Boolean query: " +:+ e)
        end).
Proof.
  apply (parse_query_without_quotes (fun s => Raise s) new_parser
           "Python AND (Django OR Flask)").
  vm_compute. reflexivity.
Defined.

Lemma rebuild_size (ps : list piece) :
  forall st : BooleanSearchParser,
  (forall i, quoted_phrases st !! placeholder (placeholder_counter st + i) = None) ->
  size (quoted_phrases (rebuild_with replace_quoted ps st).1) =
    size (quoted_phrases st) + length (hits quoted_group ps).
Proof.
  induction ps as [|[c|t] ps IH]; intros st Hfresh.
  - cbn. lia.
  - rewrite rebuild_lit_state. apply IH, Hfresh.
  - rewrite rebuild_hit_state, IH.
    + rewrite replace_quoted_table, map_size_insert_None.
      * cbn [hits length]. lia.
      * specialize (Hfresh 0). rewrite Nat.add_0_r in Hfresh. exact Hfresh.
    + intros i. rewrite replace_quoted_table, replace_quoted_counter.
      rewrite lookup_insert_ne.
      * replace (placeholder_counter st + 1 + i)
          with (placeholder_counter st + S i) by lia.
        apply Hfresh.
      * intros E. apply placeholder_inj in E. lia.
Qed.

(** X15. After [parse_query] the phrase table has exactly one entry per
    quoted phrase of the query: phrases never share a placeholder, even when
    the same phrase is quoted twice. *)
Theorem phrase_table_size
  (algebra_parse : string -> result Expression)
  (self : BooleanSearchParser) (query : string) :
  size (quoted_phrases (parse_query algebra_parse self query).1) =
    length (re_findall re_quoted quoted_group query).
Proof.
  rewrite parse_query_state. unfold preprocess_query, re_sub_with, re_findall.
  rewrite rebuild_size; [reflexivity|].
  intros i. apply lookup_empty.
Qed.

(** ** Search driver *)

Lemma search_loop_filter (keep : value -> bool) (docs : list value) :
  forall acc,
  fold_left (fun matching_docs doc =>
               if keep doc then matching_docs ++ [doc] else matching_docs)
            docs acc
  = acc ++ List.filter keep docs.
Proof.
  induction docs as [|doc docs IH]; intros acc.
  - cbn. rewrite app_nil_r. reflexivity.
  - cbn [fold_left List.filter]. rewrite IH.
    destruct (keep doc); [rewrite <- app_assoc|]; reflexivity.
Qed.

Lemma search_resumes_filter (parsed_query : Expression)
  (qp : gmap string string) (docs : list value) :
  search_resumes parsed_query qp docs =
    List.filter
      (fun doc =>
         evaluate_expression parsed_query (normalize (flatten_json doc)) (Some qp))
      docs.
Proof.
  unfold search_resumes.
  exact (search_loop_filter
           (fun doc => evaluate_expression parsed_query
                         (normalize (flatten_json doc)) (Some qp)) docs []).
Qed.

(** X16. The search loop is a stable filter: it returns exactly the
    documents whose normalized flattened text satisfies the query, in corpus
    order; each document is judged on its own, so searching two corpora one
    after the other gives the two results one after the other. *)
Theorem search_resumes_stable_filter (parsed_query : Expression)
  (qp : gmap string string) (docs docs' : list value) :
  search_resumes parsed_query qp docs =
    List.filter
      (fun doc =>
         evaluate_expression parsed_query (normalize (flatten_json doc)) (Some qp))
      docs
  /\ search_resumes parsed_query qp (docs ++ docs') =
       search_resumes parsed_query qp docs ++ search_resumes parsed_query qp docs'.
Proof.
  split; [apply search_resumes_filter|].
  rewrite !search_resumes_filter. apply List.filter_app.
Qed.

Lemma main_search_plain
  (algebra_parse : string -> result Expression)
  (search_query : string) (docs : list value) :
  search_query <> "" ->
  str_in "AND" search_query = false ->
  str_in "OR" search_query = false ->
  str_in "NOT" search_query = false ->
  str_in (String dquote "") search_query = false ->
  main_search algebra_parse search_query docs =
    Matches
      (List.filter
         (fun doc => str_in (str_lower search_query) (normalize (flatten_json doc)))
         docs).
Proof.
  intros Hne Hand Hor Hnot Hq. unfold main_search, parse_step.
  rewrite Hand, Hor, Hnot, Hq. cbn [orb].
  destruct search_query as [|c q]; [contradiction|].
  rewrite search_resumes_filter. f_equal.
  apply List.filter_ext. intros doc.
  rewrite evaluate_Symbol_substring, str_lower_idem. reflexivity.
Qed.

(** X17. For a non-empty query without [AND], [OR], [NOT] and quotation
    marks, [main] returns exactly the documents whose normalized flattened
    text contains the lowercased query as a substring, in corpus order. *)
Theorem main_plain_query_is_substring_search
  (algebra_parse : string -> result Expression)
  (search_query : string) (docs : list value) :
  search_query <> "" ->
  str_in "AND" search_query = false ->
  str_in "OR" search_query = false ->
  str_in "NOT" search_query = false ->
  str_in (String dquote "") search_query = false ->
  main_search algebra_parse search_query docs =
    Matches
      (List.filter
         (fun doc => str_in (str_lower search_query) (normalize (flatten_json doc)))
         docs).
Proof. apply main_search_plain. Qed.

Lemma main_plain_query_is_substring_search_witness :
  main_search (fun s => Raise s) "Django"
    [VDict [("skills", VList [VStr "Python"; VStr "Django"])];
     VDict [("skills", VList [VStr "Java"])]]
  = Matches
      (List.filter
         (fun doc => str_in (str_lower "Django") (normalize (flatten_json doc)))
         [VDict [("skills", VList [VStr "Python"; VStr "Django"])];
          VDict [("skills", VList [VStr "Java"])]]).
Proof.
  apply (main_plain_query_is_substring_search (fun s => Raise s) "Django");
    [discriminate | reflexivity..].
Defined.

Lemma filter_none {A : Type} (f : A -> bool) (l : list A) :
  (forall x, f x = false) -> List.filter f l = [].
Proof.
  intros Hf. induction l as [|x l IH]; [reflexivity|].
  cbn [List.filter]. rewrite Hf. exact IH.
Qed.

Lemma symbol_term_not_in_normalized (term text : string) :
  str_exists is_symbol term = true ->
  str_in (str_lower term) (normalize text) = false.
Proof.
  intros Hsym.
  destruct (str_in (str_lower term) (normalize text)) eqn:Hin; [|reflexivity].
  destruct (str_in_split _ _ Hin) as (pre & post & E).
  pose proof (normalize_no_symbol text) as Hno.
  rewrite E, !str_exists_app, str_exists_lower, Hsym, orb_true_r in Hno.
  discriminate Hno.
Qed.

(** X18. A query without [AND], [OR], [NOT] and quotation marks that
    contains a character which is neither a word character nor whitespace
    (such as [C++], [C#], [node.js] or [.NET]) finds no document, whatever
    the corpus holds. *)
Theorem main_query_with_symbol_finds_nothing
  (algebra_parse : string -> result Expression)
  (search_query : string) (docs : list value) :
  str_exists is_symbol search_query = true ->
  str_in "AND" search_query = false ->
  str_in "OR" search_query = false ->
  str_in "NOT" search_query = false ->
  str_in (String dquote "") search_query = false ->
  main_search algebra_parse search_query docs = Matches [].
Proof.
  intros Hsym Hand Hor Hnot Hq.
  rewrite main_search_plain by (try assumption; intros ->; discriminate Hsym).
  f_equal. apply filter_none. intros doc.
  apply symbol_term_not_in_normalized, Hsym.
Qed.

Lemma main_query_with_symbol_finds_nothing_witness :
  main_search (fun s => Raise s) "C++"
    [VDict [("skills", VList [VStr "C++"; VStr "Java"])]] = Matches [].
Proof.
  apply (main_query_with_symbol_finds_nothing (fun s => Raise s) "C++");
    reflexivity.
Defined.

(** ** Nested operators *)

Lemma evaluate_table_irrelevant (expr : Expression) (text : string) :
  forall qp1 qp2 : option (gmap string string),
  evaluate_expression expr text qp1 = evaluate_expression expr text qp2.
Proof.
  induction expr as [obj|args IH|args IH|arg _] using Expression_nested_ind;
    intros qp1 qp2.
  - rewrite !evaluate_Symbol_substring. reflexivity.
  - cbn [evaluate_expression]. apply forallb_Forall_ext.
    eapply Forall_impl; [exact IH|]. intros a Ha. apply Ha.
  - cbn [evaluate_expression]. apply existsb_Forall_ext.
    eapply Forall_impl; [exact IH|]. intros a Ha. apply Ha.
  - reflexivity.
Qed.

Lemma evaluate_AND (args : list Expression) (text : string)
  (qp : option (gmap string string)) :
  evaluate_expression (AND args) text qp =
    forallb (fun arg => evaluate_expression arg text qp) args.
Proof.
  cbn [evaluate_expression]. apply forallb_Forall_ext, Forall_forall.
  intros a _. apply evaluate_table_irrelevant.
Qed.

Lemma evaluate_OR (args : list Expression) (text : string)
  (qp : option (gmap string string)) :
  evaluate_expression (OR args) text qp =
    existsb (fun arg => evaluate_expression arg text qp) args.
Proof.
  cbn [evaluate_expression]. apply existsb_Forall_ext, Forall_forall.
  intros a _. apply evaluate_table_irrelevant.
Qed.

(** X19. Nesting an operator inside the same operator makes no difference:
    a conjunction among the operands of a conjunction can be spliced in
    place, likewise for disjunctions, and a conjunction or disjunction of a
    single operand evaluates like the operand. *)
Theorem same_operator_nesting_is_irrelevant (xs ys zs : list Expression)
  (arg : Expression) (text : string) (qp : option (gmap string string)) :
  evaluate_expression (AND (xs ++ AND ys :: zs)) text qp =
    evaluate_expression (AND (xs ++ ys ++ zs)) text qp
  /\ evaluate_expression (OR (xs ++ OR ys :: zs)) text qp =
       evaluate_expression (OR (xs ++ ys ++ zs)) text qp
  /\ evaluate_expression (AND [arg]) text qp = evaluate_expression arg text qp
  /\ evaluate_expression (OR [arg]) text qp = evaluate_expression arg text qp.
Proof.
  rewrite !evaluate_AND, !evaluate_OR, !forallb_app, !existsb_app.
  cbn [forallb existsb]. rewrite evaluate_AND, evaluate_OR.
  rewrite andb_true_r, orb_false_r. repeat split; reflexivity.
Qed.

Example BooleanAlgebra_parse_samples :
  BooleanAlgebra_parse "Python AND (Django OR Flask)"
    = Return (AND [Symbol "Python"; OR [Symbol "Django"; Symbol "Flask"]])
  /\ BooleanAlgebra_parse "a OR b OR NOT c AND d"
     = Return (OR [Symbol "a"; Symbol "b"; AND [NOT (Symbol "c"); Symbol "d"]])
  /\ BooleanAlgebra_parse "QUOTED_PHRASE_0" = Return (Symbol "QUOTED_PHRASE_0")
  /\ BooleanAlgebra_parse "(Python AND" = Raise "Unbalanced parentheses"
  /\ BooleanAlgebra_parse "Python AND" = Raise "Invalid expression"
  /\ BooleanAlgebra_parse "" = Raise "Empty expression".
Proof. vm_compute. repeat split; reflexivity. Qed.

(** ** Boolean grammar *)

Lemma descend_sound (fuel : nat) :
  forall lv ts xs rest,
  descend fuel lv ts = Some (xs, rest) ->
  exists x, ts = x ++ rest /\ derives lv x.
Proof.
  induction fuel as [|fuel IH]; intros lv ts xs rest H; [discriminate|].
  cbn [descend] in H. destruct lv.
  - destruct (descend fuel LAnd ts) as [[ys r]|] eqn:E; [|discriminate].
    apply IH in E as (a & -> & Ha).
    destruct r as [|t r].
    { injection H as <- <-. exists a. split; [reflexivity | apply d_or_one, Ha]. }
    destruct t;
      try (injection H as <- <-; exists a;
           split; [reflexivity | apply d_or_one, Ha]).
    destruct (descend fuel LOr r) as [[zs r']|] eqn:E2; [|discriminate].
    apply IH in E2 as (x & -> & Hx). injection H as <- <-.
    exists (a ++ TOR :: x). split; [|apply d_or_more; assumption].
    rewrite <- app_assoc. reflexivity.
  - destruct (descend fuel LNot ts) as [[ys r]|] eqn:E; [|discriminate].
    apply IH in E as (n & -> & Hn).
    destruct r as [|t r].
    { injection H as <- <-. exists n. split; [reflexivity | apply d_and_one, Hn]. }
    destruct t;
      try (injection H as <- <-; exists n;
           split; [reflexivity | apply d_and_one, Hn]).
    destruct (descend fuel LAnd r) as [[zs r']|] eqn:E2; [|discriminate].
    apply IH in E2 as (x & -> & Hx). injection H as <- <-.
    exists (n ++ TAND :: x). split; [|apply d_and_more; assumption].
    rewrite <- app_assoc. reflexivity.
  - destruct ts as [|t ts]; [discriminate|].
    destruct t; try discriminate.
    + destruct (descend fuel LNot ts) as [[ys r]|] eqn:E; [|discriminate].
      apply IH in E as (n & -> & Hn). injection H as <- <-.
      exists (TNOT :: n). split; [reflexivity | apply d_not, Hn].
    + destruct (descend fuel LOr ts) as [[ys r]|] eqn:E; [|discriminate].
      apply IH in E as (x & -> & Hx).
      destruct r as [|t r]; [discriminate|]. destruct t; try discriminate.
      injection H as <- <-. exists (TLPAR :: x ++ [TRPAR]).
      split; [|apply d_group, Hx].
      cbn [app]. rewrite <- app_assoc. reflexivity.
    + injection H as <- <-. exists [TSYM text].
      split; [reflexivity | apply d_term].
Qed.

Lemma descend_complete (lv : level) (x : list token) :
  derives lv x ->
  forall rest fuel,
  may_follow lv rest ->
  3 * length x + level_fuel lv <= fuel ->
  exists xs, descend fuel lv (x ++ rest) = Some (xs, rest).
Proof.
  induction 1 as [text|n Hn IHn|x Hx IHx|n Hn IHn|n x Hn IHn Hx IHx
                  |a Ha IHa|a x Ha IHa Hx IHx];
    intros rest fuel Hfollow Hfuel;
    (destruct fuel as [|fuel]; [cbn in Hfuel; lia|]);
    cbn [descend]; cbn [level_fuel length] in *;
    rewrite ?length_app in *; cbn [length] in *.
  - eexists. reflexivity.
  - cbn [app]. destruct (IHn rest fuel I) as [xs ->]; [cbn; lia|].
    eexists. reflexivity.
  - cbn [app]. rewrite <- app_assoc. cbn [app].
    destruct (IHx (TRPAR :: rest) fuel I) as [xs ->]; [cbn; lia|].
    eexists. reflexivity.
  - destruct (IHn rest fuel I) as [xs ->]; [cbn; lia|].
    destruct rest as [|[] rest]; try (eexists; reflexivity).
    destruct Hfollow.
  - rewrite <- app_assoc. cbn [app].
    destruct (IHn (TAND :: x ++ rest) fuel I) as [xs ->]; [cbn; lia|].
    destruct (IHx rest fuel Hfollow) as [ys ->]; [cbn; lia|].
    eexists. reflexivity.
  - destruct (IHa rest fuel) as [xs ->].
    + destruct rest as [|[] rest]; try exact I. destruct Hfollow.
    + cbn. lia.
    + destruct rest as [|[] rest]; try (eexists; reflexivity).
      destruct Hfollow.
  - rewrite <- app_assoc. cbn [app].
    destruct (IHa (TOR :: x ++ rest) fuel I) as [xs ->]; [cbn; lia|].
    destruct (IHx rest fuel Hfollow) as [ys ->]; [cbn; lia|].
    eexists. reflexivity.
Qed.

Lemma derives_well_formed (lv : level) (x : list token) :
  derives lv x -> well_formed x.
Proof.
  induction 1; try assumption;
    [apply wf_term | apply wf_not | apply wf_group
     | apply wf_and | apply wf_or]; assumption.
Qed.

Lemma derives_lift (lv : level) (x : list token) : derives lv x -> derives LOr x.
Proof.
  intros H. destruct lv; [exact H | apply d_or_one, H
                          | apply d_or_one, d_and_one, H].
Qed.

Lemma derives_lift_and (x : list token) : derives LNot x -> derives LAnd x.
Proof. apply d_and_one. Qed.

Lemma derives_not (lv : level) (x : list token) :
  derives lv x -> derives lv (TNOT :: x).
Proof.
  induction 1 as [text|n Hn IHn|x Hx IHx|n Hn IHn|n x Hn IHn Hx IHx
                  |a Ha IHa|a x Ha IHa Hx IHx].
  - apply d_not, d_term.
  - apply d_not, IHn.
  - apply d_not, d_group, Hx.
  - apply d_and_one, IHn.
  - apply (d_and_more (TNOT :: n) x); assumption.
  - apply d_or_one, IHa.
  - apply (d_or_more (TNOT :: a) x); assumption.
Qed.

Lemma derives_and_and (a : list token) :
  derives LAnd a -> forall b, derives LAnd b -> derives LAnd (a ++ TAND :: b).
Proof.
  intros Ha. remember LAnd as lv eqn:E. revert E.
  induction Ha as [text|n Hn IHn|x Hx IHx|n Hn IHn|n x Hn IHn Hx IHx
                   |a Ha IHa|a x Ha IHa Hx IHx]; intros E b Hb;
    try discriminate E.
  - apply d_and_more; assumption.
  - rewrite <- app_assoc. cbn [app]. apply d_and_more; [exact Hn|].
    apply IHx; [reflexivity | exact Hb].
Qed.

Lemma derives_and_or (lv : level) (b : list token) :
  derives lv b ->
  forall a, derives LAnd a -> derives LOr (a ++ TAND :: b).
Proof.
  induction 1 as [text|n Hn IHn|x Hx IHx|n Hn IHn|n x Hn IHn Hx IHx
                  |b Hb IHb|b x Hb IHb Hx IHx]; intros a Ha.
  - apply d_or_one, derives_and_and; [exact Ha | apply d_and_one, d_term].
  - apply d_or_one, derives_and_and; [exact Ha | apply d_and_one, d_not, Hn].
  - apply d_or_one, derives_and_and; [exact Ha | apply d_and_one, d_group, Hx].
  - apply d_or_one, derives_and_and; [exact Ha | apply d_and_one, Hn].
  - apply d_or_one, derives_and_and; [exact Ha | apply d_and_more; assumption].
  - apply d_or_one, derives_and_and; assumption.
  - replace (a ++ TAND :: b ++ TOR :: x) with ((a ++ TAND :: b) ++ TOR :: x)
      by (rewrite <- app_assoc; reflexivity).
    apply d_or_more; [apply derives_and_and; assumption | exact Hx].
Qed.

Lemma derives_join_and (lv : level) (a : list token) :
  derives lv a ->
  forall b, derives LOr b -> derives LOr (a ++ TAND :: b).
Proof.
  induction 1 as [text|n Hn IHn|x Hx IHx|n Hn IHn|n x Hn IHn Hx IHx
                  |a Ha IHa|a x Ha IHa Hx IHx]; intros b Hb.
  - apply (derives_and_or LOr b Hb), d_and_one, d_term.
  - apply (derives_and_or LOr b Hb), d_and_one, d_not, Hn.
  - apply (derives_and_or LOr b Hb), d_and_one, d_group, Hx.
  - apply (derives_and_or LOr b Hb), d_and_one, Hn.
  - apply (derives_and_or LOr b Hb), d_and_more; assumption.
  - apply (derives_and_or LOr b Hb), Ha.
  - rewrite <- app_assoc. cbn [app]. apply d_or_more; [exact Ha|].
    apply IHx, Hb.
Qed.

Lemma derives_join_or (lv : level) (a : list token) :
  derives lv a ->
  forall b, derives LOr b -> derives LOr (a ++ TOR :: b).
Proof.
  induction 1 as [text|n Hn IHn|x Hx IHx|n Hn IHn|n x Hn IHn Hx IHx
                  |a Ha IHa|a x Ha IHa Hx IHx]; intros b Hb.
  - apply d_or_more; [apply d_and_one, d_term | exact Hb].
  - apply d_or_more; [apply d_and_one, d_not, Hn | exact Hb].
  - apply d_or_more; [apply d_and_one, d_group, Hx | exact Hb].
  - apply d_or_more; [apply d_and_one, Hn | exact Hb].
  - apply d_or_more; [apply d_and_more; assumption | exact Hb].
  - apply d_or_more; assumption.
  - rewrite <- app_assoc. cbn [app]. apply d_or_more; [exact Ha|].
    apply IHx, Hb.
Qed.

(** The layered grammar accepts every well-formed expression. *)
Lemma well_formed_derives (x : list token) : well_formed x -> derives LOr x.
Proof.
  induction 1 as [text|e He IHe|a b Ha IHa Hb IHb|a b Ha IHa Hb IHb|e He IHe].
  - apply (derives_lift LNot), d_term.
  - apply derives_not, IHe.
  - apply (derives_join_and LOr a IHa b IHb).
  - apply (derives_join_or LOr a IHa b IHb).
  - apply (derives_lift LNot), d_group, IHe.
Qed.

Lemma well_formed_nonempty (ts : list token) : well_formed ts -> ts <> [].
Proof.
  induction 1 as [text|e He IHe|a b Ha IHa Hb IHb|a b Ha IHa Hb IHb|e He IHe];
    try discriminate; intros E; apply app_eq_nil in E as [_ E]; discriminate E.
Qed.

Lemma count_lparen_app (a b : list token) :
  count_lparen (a ++ b) = count_lparen a + count_lparen b.
Proof.
  induction a as [|t a IH]; [reflexivity|].
  destruct t; cbn [app count_lparen]; rewrite IH; reflexivity.
Qed.

Lemma count_rparen_app (a b : list token) :
  count_rparen (a ++ b) = count_rparen a + count_rparen b.
Proof.
  induction a as [|t a IH]; [reflexivity|].
  destruct t; cbn [app count_rparen]; rewrite IH; reflexivity.
Qed.

Lemma well_formed_balanced (ts : list token) :
  well_formed ts -> count_lparen ts = count_rparen ts.
Proof.
  induction 1 as [text|e He IHe|a b Ha IHa Hb IHb|a b Ha IHa Hb IHb|e He IHe];
    cbn [count_lparen count_rparen];
    rewrite ?count_lparen_app, ?count_rparen_app;
    cbn [count_lparen count_rparen]; lia.
Qed.

Lemma hd_app_nonempty (a b : list token) (d : token) :
  a <> [] -> hd d (a ++ b) = hd d a.
Proof. destruct a; [contradiction | reflexivity]. Qed.

Lemma last_app_nonempty (a b : list token) (d : token) :
  b <> [] -> List.last (a ++ b) d = List.last b d.
Proof.
  intros Hb. induction a as [|t a IH]; [reflexivity|].
  cbn [app]. destruct (a ++ b) eqn:E.
  - apply app_eq_nil in E as [_ ->]. contradiction.
  - cbn [List.last]. exact IH.
Qed.

Lemma well_formed_head (ts : list token) :
  well_formed ts -> forall d, is_infix (hd d ts) = false.
Proof.
  induction 1 as [text|e He IHe|a b Ha IHa Hb IHb|a b Ha IHa Hb IHb|e He IHe];
    intros d; try reflexivity;
    rewrite (hd_app_nonempty _ _ _ (well_formed_nonempty _ Ha)); apply IHa.
Qed.

Lemma well_formed_last (ts : list token) :
  well_formed ts -> forall d, is_operator (List.last ts d) = false.
Proof.
  induction 1 as [text|e He IHe|a b Ha IHa Hb IHb|a b Ha IHa Hb IHb|e He IHe];
    intros d.
  - reflexivity.
  - change (TNOT :: e) with ([TNOT] ++ e).
    rewrite (last_app_nonempty _ _ _ (well_formed_nonempty _ He)). apply IHe.
  - change (a ++ TAND :: b) with (a ++ [TAND] ++ b).
    rewrite app_assoc, (last_app_nonempty _ _ _ (well_formed_nonempty _ Hb)).
    apply IHb.
  - change (a ++ TOR :: b) with (a ++ [TOR] ++ b).
    rewrite app_assoc, (last_app_nonempty _ _ _ (well_formed_nonempty _ Hb)).
    apply IHb.
  - change (TLPAR :: e ++ [TRPAR]) with ((TLPAR :: e) ++ [TRPAR]).
    rewrite last_app_nonempty by discriminate. reflexivity.
Qed.

(** The three kinds of syntax error are not well-formed. *)
Lemma malformed_not_well_formed (ts : list token) :
  empty_expression ts = true \/ unbalanced_parentheses ts = true
  \/ dangling_operator ts = true ->
  ~ well_formed ts.
Proof.
  intros H Hwf. destruct H as [H|[H|H]].
  - destruct ts; [|discriminate H]. exact (well_formed_nonempty _ Hwf eq_refl).
  - unfold unbalanced_parentheses in H.
    rewrite (well_formed_balanced _ Hwf), Nat.eqb_refl in H. discriminate H.
  - unfold dangling_operator in H. destruct ts as [|t ts]; [discriminate H|].
    pose proof (well_formed_head _ Hwf t) as Hh.
    pose proof (well_formed_last _ Hwf t) as Hl.
    cbn [hd] in Hh. rewrite Hh, Hl in H. discriminate H.
Qed.

(** The parser accepts exactly the well-formed expressions. *)
Lemma BooleanAlgebra_parse_accepts (expr : string) :
  well_formed (tokenize expr) ->
  exists tree, BooleanAlgebra_parse expr = Return tree.
Proof.
  intros Hwf. unfold BooleanAlgebra_parse.
  destruct (descend_complete LOr _ (well_formed_derives _ Hwf) []
              (3 * length (tokenize expr) + 3) I) as [xs E].
  - cbn [level_fuel]. lia.
  - rewrite app_nil_r in E. rewrite E. eexists. reflexivity.
Qed.

Lemma BooleanAlgebra_parse_rejects (expr : string) :
  ~ well_formed (tokenize expr) ->
  BooleanAlgebra_parse expr = Raise (syntax_error (tokenize expr)).
Proof.
  intros Hnwf. unfold BooleanAlgebra_parse.
  destruct (descend _ LOr (tokenize expr)) as [[xs [|t r]]|] eqn:E;
    try reflexivity.
  destruct (descend_sound _ _ _ _ _ E) as (x & Hx & Hd).
  rewrite app_nil_r in Hx. subst x.
  destruct (Hnwf (derives_well_formed _ _ Hd)).
Qed.

(** C8. With the grammar of the spec ([AND], [OR], [NOT], parentheses,
    terms): when the placeholder-substituted query is a well-formed
    expression, [parse_query] returns a tree; when it is not, [parse_query]
    raises an error whose message is [Invalid Boolean query: ] followed by
    the syntax-error message, and returns no tree; and a query with no
    token, with unequal numbers of opening and closing parentheses, or with
    an operator dangling at either end is not well-formed. *)
Theorem parse_query_malformed_or_tree
  (self : BooleanSearchParser) (query : string) :
  let ts := tokenize (preprocess_query new_parser query).2 in
  (well_formed ts ->
   exists tree : Expression,
     (parse_query BooleanAlgebra_parse self query).2 = Return tree)
  /\ (~ well_formed ts ->
      (parse_query BooleanAlgebra_parse self query).2 =
        Raise ("Invalid Boolean query: " +:+ syntax_error ts)
      /\ str_in (syntax_error ts)
           ("Invalid Boolean query: " +:+ syntax_error ts) = true)
  /\ (empty_expression ts = true \/ unbalanced_parentheses ts = true
      \/ dangling_operator ts = true ->
      ~ well_formed ts).
Proof.
  cbv zeta.
  destruct (parse_query_wraps_grammar BooleanAlgebra_parse self query)
    as [Hraise Hreturn].
  split; [|split].
  - intros Hwf. destruct (BooleanAlgebra_parse_accepts _ Hwf) as [tree E].
    exists tree. apply Hreturn, E.
  - intros Hnwf. apply Hraise, BooleanAlgebra_parse_rejects, Hnwf.
  - apply malformed_not_well_formed.
Qed.

Example parse_query_samples :
  (parse_query BooleanAlgebra_parse new_parser "(Python AND").2
    = Raise "Invalid Boolean query: Unbalanced parentheses"
  /\ (parse_query BooleanAlgebra_parse new_parser "Python AND").2
     = Raise "Invalid Boolean query: Invalid expression"
  /\ (parse_query BooleanAlgebra_parse new_parser "").2
     = Raise "Invalid Boolean query: Empty expression"
  /\ (parse_query BooleanAlgebra_parse new_parser "Python AND (Django OR Flask)").2
     = Return (AND [Symbol "Python"; OR [Symbol "Django"; Symbol "Flask"]])
  /\ (parse_query BooleanAlgebra_parse new_parser
        (qt "C (ANSI) AND more" +:+ " AND NOT Java")).2
     = Return (AND [Symbol "QUOTED_PHRASE_0"; NOT (Symbol "Java")]).
Proof. vm_compute. repeat split; reflexivity. Qed.
